(** * ssb-db2: ingestion pipeline, deletion, consistency barrier, full-mentions index

    A shallow embedding of [db.js] (the functions [getId], [get], [getSync],
    [add], [del], [deleteFeed], [validateAndAddOOO], [validateAndAdd] and the
    start-up restore of the validation state) and of
    [FullMentions.handleRecord] (indexes/full-mentions.js).

    JavaScript callbacks are completed in program order: a function that takes
    a callback [cb] becomes a function returning the new database together
    with the value handed to [cb].  The laziness of the base index is explicit:
    the index incorporates log records one [index_step] at a time. *)

From Stdlib Require Import ZArith Ascii String List Bool Lia.
From stdpp Require Import base option strings gmap list.

Local Open Scope string_scope.
Local Open Scope Z_scope.
Local Open Scope list_scope.

(** ** JavaScript values *)

Module Js.

Unset Elimination Schemes.
Inductive jsval : Type :=
| JUndefined
| JNull
| JBool (b : bool)
| JNum (n : Z)
| JStr (s : string)
| JArr (items : list jsval)
| JObj (fields : list (string * jsval)).
Set Elimination Schemes.

(** [if (v)]: the values that count as true. *)
Definition truthy (v : jsval) : bool :=
match v with
| JUndefined | JNull => false
| JBool b => b
| JNum n => negb (Z.eqb n 0)
| JStr s => negb (String.eqb s "")
| JArr _ | JObj _ => true
end.

(** [typeof v === 'string'] *)
Definition is_string (v : jsval) : bool :=
match v with JStr _ => true | _ => false end.

Fixpoint assoc (k : string) (fields : list (string * jsval)) : jsval :=
match fields with
| [] => JUndefined
| (k', v) :: rest => if String.eqb k k' then v else assoc k rest
end.

(** [v.k]: reading a property throws a TypeError on [undefined] and [null]
  ([None] here), gives the field of an object, and [undefined] on the
  other values (no own property of that name). *)
Definition prop (v : jsval) (k : string) : option jsval :=
match v with
| JUndefined | JNull => None
| JObj fields => Some (assoc k fields)
| _ => Some JUndefined
end.

(** [s[0]] of a string: its first character, if any. *)
Definition first_char (s : string) : option Ascii.ascii :=
match s with
| EmptyString => None
| String c _ => Some c
end.

(** The property names every plain object inherits from [Object.prototype];
  the [in] operator answers true for them whatever the object holds. *)
Definition object_prototype_names : list string :=
[ "constructor"; "__defineGetter__"; "__defineSetter__"; "hasOwnProperty";
  "__lookupGetter__"; "__lookupSetter__"; "isPrototypeOf";
  "propertyIsEnumerable"; "toString"; "valueOf"; "__proto__";
  "toLocaleString" ].

(** [k in o] for a plain object [o] used as a map. *)
Definition key_in {V} (k : string) (o : gmap string V) : bool :=
bool_decide (is_Some (o !! k)) || bool_decide (k ∈ object_prototype_names).

End Js.
Import Js.

(** ** Messages, errors, callbacks *)

Record Meta : Type := mkMeta {
  meta_private : string;
  meta_original_content : jsval
}.

Record Msg : Type := mkMsg {
  author : string;
  sequence : Z;
  previous : option string;
  timestamp : Z;
  content : jsval;
  meta : option Meta;
  signature : string
}.

Inductive ErrorKind : Type :=
  | SequenceGap
  | PreviousMismatch
  | TimestampRegression
  | BadSignature
  | MalformedMessage.

Inductive Error : Type :=
  | ValidationError (k : ErrorKind)
  | NotFound
  | JsError (message : string).

(** What a node-style callback [cb(err, data)] receives. *)
Inductive Cb (A : Type) : Type :=
  | CbErr (e : Error)
  | CbOk (a : A).
Arguments CbErr {A} e.
Arguments CbOk {A} a.

Definition is_err {A} (r : Cb A) : bool :=
  match r with CbErr _ => true | CbOk _ => false end.

(** ** The append-only log *)

(** A record of the log as [log.add(id, msg, cb)] writes it: the message
    value under its key. *)
Record LogRecord : Type := mkRecord {
  rec_key : string;
  rec_value : Msg
}.

(** Modelled from the spec: the log engine (./log) is consumed as a
    sequence-numbered record store with [add], [del] and a last-sequence
    observable.  A slot holds [Some r], or [None] once tombstoned: the
    tombstone keeps the slot and makes its content unavailable. *)
Abbreviation Log := (list (option LogRecord)).

(** Modelled from the spec: [log.since.value], the log's last sequence,
    counted as the number of slots written. *)
Definition log_since (l : Log) : nat := length l.

(** Modelled from the spec: [log.add(id, msg, cb)] appends one record and
    calls back with it.  This log always stores: a failure of the storage
    engine is outside the model, and what is proved of an append is proved
    of a log that stores.  [add] hands on whatever [log.add] calls back
    with, an error included. *)
Definition log_add (id : string) (m : Msg) (l : Log) : Log * Cb LogRecord :=
  let r := mkRecord id m in (l ++ [Some r], CbOk r).

(** Modelled from the spec: [log.del(seq, cb)] tombstones the slot [seq];
    a sequence the log does not hold is an error and changes nothing. *)
Definition log_del (seq : nat) (l : Log) : Log * Cb unit :=
  if bool_decide (seq < length l)%nat
  then (<[seq := None]> l, CbOk tt)
  else (l, CbErr NotFound).

(** ** The base index (indexes/full-scan) *)

Record Latest : Type := mkLatest {
  latest_id : string;
  latest_timestamp : Z;
  latest_sequence : Z
}.

(** Modelled from the spec: the full-scan base index keeps a processed
    watermark, resolves a message key to its log sequence and maintains the
    latest message per author.  [idx_seq] counts the log slots incorporated
    so far. *)
Record BaseIndex : Type := mkIndex {
  idx_seq : nat;
  idx_keys : gmap string nat;
  idx_latest : gmap string Latest
}.

Definition empty_index : BaseIndex := mkIndex 0 ∅ ∅.

(** Modelled from the spec: the index consumes the log in ascending sequence
    order, one slot at a time, starting at its watermark; tombstoned slots
    are skipped. *)
Definition index_step (l : Log) (ix : BaseIndex) : BaseIndex :=
  match l !! idx_seq ix with
  | None => ix
  | Some None => mkIndex (S (idx_seq ix)) (idx_keys ix) (idx_latest ix)
  | Some (Some r) =>
      let m := rec_value r in
      mkIndex (S (idx_seq ix))
        (<[rec_key r := idx_seq ix]> (idx_keys ix))
        (<[author m := mkLatest (rec_key r) (timestamp m) (sequence m)]>
           (idx_latest ix))
  end.

Fixpoint index_steps (n : nat) (l : Log) (ix : BaseIndex) : BaseIndex :=
  match n with
  | O => ix
  | S n' => index_steps n' l (index_step l ix)
  end.

(** Modelled from the spec: [fullIndex.getDataFromKey(id, cb)] calls back
    with [(err, data)]: the record the key resolves to, or an error when the
    key is not indexed or its slot is tombstoned. *)
Definition getDataFromKey (ix : BaseIndex) (l : Log) (id : string)
  : Cb LogRecord :=
  match idx_keys ix !! id with
  | Some n =>
      match l !! n with
      | Some (Some r) => CbOk r
      | _ => CbErr NotFound
      end
  | None => CbErr NotFound
  end.

(** Modelled from the spec: [fullIndex.keyToSeq(key, cb)] calls back with
    [(err, seq)]; [CbOk None] stands for a call back without error and
    without sequence, which [del] checks for. *)
Definition keyToSeq (ix : BaseIndex) (key : string) : Cb (option nat) :=
  match idx_keys ix !! key with
  | Some n => CbOk (Some n)
  | None => CbErr NotFound
  end.

(** Modelled from the spec: [fullIndex.getAllLatest(cb)]. *)
Definition getAllLatest (ix : BaseIndex) : gmap string Latest := idx_latest ix.

(** Modelled from the spec: [fullIndex.removeFeedFromLatest(feedId)]. *)
Definition removeFeedFromLatest (feedId : string) (ix : BaseIndex) : BaseIndex :=
  mkIndex (idx_seq ix) (idx_keys ix) (delete feedId (idx_latest ix)).

(** ** Validation state (ssb-validate) *)

Record FeedState : Type := mkFeedState {
  fs_id : string;
  fs_timestamp : Z;
  fs_sequence : Z;
  fs_queue : list Msg
}.

Record ValidationState : Type := mkVState {
  feeds : gmap string FeedState;
  error : option Error;
  queue : list LogRecord
}.

(** What a call into the validator leaves behind.  The validator works on the
    state object it is handed: [Returns s] is that object as returned,
    [Throws e s] an exception [e] with the object as it stands when the
    exception leaves the call. *)
Inductive Outcome : Type :=
  | Returns (s : ValidationState)
  | Throws (e : Error) (s : ValidationState).

Definition state_after (o : Outcome) : ValidationState :=
  match o with Returns s | Throws _ s => s end.

(** The error a validation attempt reports, by exception or in the error
    slot of the state it returns. *)
Definition reported (o : Outcome) : option Error :=
  match o with
  | Throws e _ => Some e
  | Returns s => error s
  end.

(** ** The database *)

Record DB : Type := mkDB {
  state : ValidationState;
  log : Log;
  fullIndex : BaseIndex
}.

Definition with_state (s : ValidationState) (db : DB) : DB :=
  mkDB s (log db) (fullIndex db).

Definition with_log (l : Log) (db : DB) : DB :=
  mkDB (state db) l (fullIndex db).

Definition with_index (ix : BaseIndex) (db : DB) : DB :=
  mkDB (state db) (log db) ix.

(** The base index incorporates the next log slot. *)
Definition index_tick (db : DB) : DB :=
  with_index (index_step (log db) (fullIndex db)) db.

Definition index_ticks (n : nat) (db : DB) : DB :=
  with_index (index_steps n (log db) (fullIndex db)) db.

(** [fullIndex.seq.value === log.since.value] *)
Definition caught_up (db : DB) : bool :=
  bool_decide (idx_seq (fullIndex db) = log_since (log db)).

(** ** db.js *)

(** What [add] hands to its callback: the value of the record found through
    the index ([data.value]), or what [log.add] calls back with. *)
Inductive Stored : Type :=
  | Existing (value : Msg)
  | Appended (r : LogRecord).

(** The pending consistency-bound read of [getSync]: the identity its
    listener on [fullIndex.seq] is registered for, if it is, and the results
    handed to the caller's callback so far. *)
Record Barrier : Type := mkBarrier {
  listening : option string;
  delivered : list (Cb Msg)
}.

(** How a call that may let an exception escape ends: its callback is
    called, or the exception is raised to the caller. *)
Inductive Call (A : Type) : Type :=
  | CalledBack (r : Cb A)
  | Raised (ex : Error).
Arguments CalledBack {A} r.
Arguments Raised {A} ex.

(** The social graph [contacts.getGraphForFeedSync] gives to [getStatus]. *)
Record Graph : Type := mkGraph {
  following : list string;
  extended : list string
}.

(** The [partial] part of what [getStatus] returns. *)
Record PartialStatus : Type := mkPartialStatus {
  totalPartial : nat;
  profilesSynced : nat;
  contactsSynced : nat;
  messagesSynced : nat;
  totalFull : nat;
  fullSynced : nat
}.

Record Status : Type := mkStatus {
  status_log : nat;
  status_indexes : nat;
  status_partial : PartialStatus
}.

Module Db.

Section Database.

(** [hash] of ssb-keys/util and [JSON.stringify(msg, null, 2)]. *)
Variable hash : string → string.
Variable stringify : Msg → string.

(** [keys.unbox(content, config.keys.private)]: the decrypted content, or
    [undefined] when the content cannot be opened with the key. *)
Variable unbox : string → jsval.

(** ssb-validate: [validate.initial()], [validate.append(state, hmac_key,
    msg)] and [validate.appendOOO(state, hmac_key, msg)], with [hmac_key]
    fixed to [null]. *)
Variable validate_initial : ValidationState.
Variable validate_append : ValidationState → Msg → Outcome.
Variable validate_appendOOO : ValidationState → Msg → Outcome.

Definition getId (msg : Msg) : string :=
  String.append "%" (hash (stringify msg)).

Definition get (db : DB) (id : string) : Cb Msg :=
  match getDataFromKey (fullIndex db) (log db) id with
  | CbOk data => CbOk (rec_value data)
  | CbErr err => CbErr err
  end.

(** [getSync(id, cb)]: read now when the index has caught up with the log,
    else register the listener.  (The observable runs a new listener once
    at registration; the index is behind at that point, so that run does
    nothing.) *)
Definition getSync (db : DB) (id : string) : Barrier :=
  if caught_up db
  then mkBarrier None [get db id]
  else mkBarrier (Some id) [].

(** The listener of [getSync], run on a change of [fullIndex.seq]. *)
Definition getSync_listener (db : DB) (b : Barrier) : Barrier :=
  match listening b with
  | Some id =>
      if caught_up db
      then mkBarrier None (delivered b ++ [get db id])
      else b
  | None => b
  end.

(** The block of [add] that stores a message encrypted for us decrypted:
    [msg.content] becomes the decrypted value and [msg.meta] keeps the
    cyphertext. *)
Definition store_unencrypted (msg : Msg) : Msg :=
  match content msg with
  | JStr cyphertext =>
      let decrypted := unbox cyphertext in
      if truthy decrypted
      then mkMsg (author msg) (sequence msg) (previous msg) (timestamp msg)
                 decrypted
                 (Some (mkMeta "true" (JStr cyphertext)))
                 (signature msg)
      else msg
  | _ => msg
  end.

Definition add (db : DB) (msg : Msg) : DB * Cb Stored :=
  let id := getId msg in
  match getDataFromKey (fullIndex db) (log db) id with
  | CbOk data => (db, CbOk (Existing (rec_value data)))
  | CbErr _ =>
      let '(l, r) := log_add id (store_unencrypted msg) (log db) in
      (with_log l db,
       match r with
       | CbOk data => CbOk (Appended data)
       | CbErr e => CbErr e
       end)
  end.

(** The restore of the validation state at start-up: one feed state per
    author of [fullIndex.getAllLatest], with an empty queue. *)
Definition restore (last : gmap string Latest) (st : ValidationState)
  : ValidationState :=
  mkVState
    (((λ l, mkFeedState (latest_id l) (latest_timestamp l)
                        (latest_sequence l) []) <$> last) ∪ feeds st)
    (error st) (queue st).

(** [exports.init] over a persisted log and base index. *)
Definition init (l : Log) (ix : BaseIndex) : DB :=
  mkDB (restore (getAllLatest ix) validate_initial) l ix.

(** The callback [del] passes to [fullIndex.keyToSeq]. *)
Definition del_resolved (db : DB) (answer : Cb (option nat)) : DB * Cb unit :=
  match answer with
  | CbErr err => (db, CbErr err)
  | CbOk None => (db, CbErr (JsError "seq is null!"))
  | CbOk (Some seq) =>
      let '(l, r) := log_del seq (log db) in (with_log l db, r)
  end.

Definition del (db : DB) (key : string) : DB * Cb unit :=
  del_resolved db (keyToSeq (fullIndex db) key).

(** Modelled from the spec: the [jitdb] query of [deleteFeed] enumerates
    the log records of an author. *)
Definition query_author (l : Log) (feedId : string) : list LogRecord :=
  omap (λ slot : option LogRecord,
          match slot with
          | Some r =>
              if decide (author (rec_value r) = feedId) then Some r else None
          | None => None
          end) l.

(** [push.values(results)] through [push.asyncMap(del)] into
    [push.collect]: the records are deleted one after the other and the
    first error ends the stream. *)
Fixpoint del_each (db : DB) (results : list LogRecord) : DB * option Error :=
  match results with
  | [] => (db, None)
  | msg :: rest =>
      match del db (rec_key msg) with
      | (db', CbErr err) => (db', Some err)
      | (db', CbOk _) => del_each db' rest
      end
  end.

(** The callback of [deleteFeed]'s query, over its results. *)
Definition deleteFeed_results (db : DB) (feedId : string)
    (results : list LogRecord) : DB * Cb unit :=
  match del_each db results with
  | (db', None) =>
      let st := state db' in
      (mkDB (mkVState (delete feedId (feeds st)) (error st) (queue st))
            (log db')
            (removeFeedFromLatest feedId (fullIndex db')),
       CbOk tt)
  | (db', Some err) => (db', CbErr err)
  end.

Definition deleteFeed (db : DB) (feedId : string) : DB * Cb unit :=
  deleteFeed_results db feedId (query_author (log db) feedId).

Definition validateAndAddOOO (db : DB) (msg : Msg) : DB * Cb Stored :=
  match validate_appendOOO validate_initial msg with
  | Throws ex _ => (db, CbErr ex)
  | Returns st =>
      match error st with
      | Some err => (db, CbErr err)
      | None => add db msg
      end
  end.

Definition validateAndAdd (db : DB) (msg : Msg) : DB * Cb Stored :=
  let knownAuthor := key_in (author msg) (feeds (state db)) in
  let outcome :=
    if negb knownAuthor
    then validate_appendOOO (state db) msg
    else validate_append (state db) msg in
  match outcome with
  | Throws ex st => (with_state st db, CbErr ex)
  | Returns st =>
      match error st with
      | Some err => (with_state st db, CbErr err)
      | None => add (with_state st db) msg
      end
  end.

(** *** addTransaction *)

(** Modelled from the spec: [addTransaction] is documented in the README
    and absent from db.js.  The ordered messages are validated one after
    the other with the strict append against a scratch copy of the
    validation state; [validate_ordered] gives the scratch copy they leave,
    or the first error. *)
Fixpoint validate_ordered (scratch : ValidationState) (msgs : list Msg)
  : Error + ValidationState :=
  match msgs with
  | [] => inr scratch
  | msg :: rest =>
      let outcome := validate_append scratch msg in
      match reported outcome with
      | Some err => inl err
      | None => validate_ordered (state_after outcome) rest
      end
  end.

(** Modelled from the spec: the out-of-order messages of a transaction are
    validated independently, each with the out-of-order append on a
    throwaway state. *)
Fixpoint validate_ooo (msgs : list Msg) : option Error :=
  match msgs with
  | [] => None
  | msg :: rest =>
      match reported (validate_appendOOO validate_initial msg) with
      | Some err => Some err
      | None => validate_ooo rest
      end
  end.

Definition transaction_records (orderedMessages oooMessages : list Msg)
  : list LogRecord :=
  map (λ msg, mkRecord (getId msg) msg) (orderedMessages ++ oooMessages).

(** Modelled from the spec: [addTransaction(orderedMessages, oooMessages,
    cb)] commits only if every validation of both sets succeeds: all
    records are appended to the log and the live validation state is
    replaced by the scratch copy. *)
Definition addTransaction (db : DB) (orderedMessages oooMessages : list Msg)
  : DB * Cb (list LogRecord) :=
  match validate_ordered (state db) orderedMessages with
  | inl err => (db, CbErr err)
  | inr scratch =>
      match validate_ooo oooMessages with
      | Some err => (db, CbErr err)
      | None =>
          let records := transaction_records orderedMessages oooMessages in
          (mkDB scratch (log db ++ map Some records) (fullIndex db),
           CbOk records)
      end
  end.

(** *** publish *)

(** ssb-validate: [validate.appendNew(state, null, config.keys, msg,
    Date.now())], over the content to publish and the time. *)
Variable validate_appendNew : ValidationState → jsval → Z → Outcome.

(** The message object [add] was called with, as [add] leaves it: on the
    path that appends, the block that decrypts assigns to [msg.content] and
    [msg.meta] of that object. *)
Definition add_argument (db : DB) (msg : Msg) : Msg :=
  match getDataFromKey (fullIndex db) (log db) (getId msg) with
  | CbOk _ => msg
  | CbErr _ => store_unencrypted msg
  end.

(** [publish(msg, cb)]: the queue of the shared state is emptied, the
    validator builds and stages the message, and the value of the first
    queued entry is added.  That value is an object of the state, so what
    [add] assigns to it shows in the queue afterwards.  The call into the
    validator is not guarded: an exception leaves [publish], and so does
    the TypeError of reading [state.queue[0].value] on an empty queue. *)
Definition publish (db : DB) (content : jsval) (now : Z)
  : DB * Call Stored :=
  let st := state db in
  match validate_appendNew (mkVState (feeds st) (error st) []) content now with
  | Throws ex st' => (with_state st' db, Raised ex)
  | Returns st' =>
      match queue st' with
      | [] => (with_state st' db, Raised (JsError "TypeError"))
      | kvt :: rest =>
          let msg := rec_value kvt in
          let '(db', r) := add (with_state st' db) msg in
          (with_state
             (mkVState (feeds st') (error st')
                (mkRecord (rec_key kvt) (add_argument (with_state st' db) msg)
                   :: rest))
             db',
           CalledBack r)
      end
  end.

(** *** getStatus *)

(** [partialState[relation] && partialState[relation][flag]], as a
    condition. *)
Definition marked (partialState : gmap string jsval) (flag : string)
    (relation : string) : bool :=
  match partialState !! relation with
  | Some v =>
      if truthy v
      then match prop v flag with
           | Some x => truthy x
           | None => false
           end
      else false
  | None => false
  end.

(** The body of [graph.following.forEach], on the counters
    [(fullSynced, totalFull)]. *)
Definition count_following (partialState : gmap string jsval)
    (counters : nat * nat) (relation : string) : nat * nat :=
  let '(fullSynced, totalFull) := counters in
  ((if marked partialState "full" relation
    then fullSynced + 1 else fullSynced)%nat,
   (totalFull + 1)%nat).

(** The body of [graph.extended.forEach], on the counters
    [(profilesSynced, contactsSynced, messagesSynced, totalPartial)]. *)
Definition count_extended (partialState : gmap string jsval)
    (counters : nat * nat * nat * nat) (relation : string)
  : nat * nat * nat * nat :=
  let '(profilesSynced, contactsSynced, messagesSynced, totalPartial) :=
    counters in
  ((if marked partialState "syncedProfile" relation
    then profilesSynced + 1 else profilesSynced)%nat,
   (if marked partialState "syncedContacts" relation
    then contactsSynced + 1 else contactsSynced)%nat,
   (if marked partialState "syncedMessages" relation
    then messagesSynced + 1 else messagesSynced)%nat,
   (totalPartial + 1)%nat).

(** [getStatus()], over what [partial.getSync()] and
    [contacts.getGraphForFeedSync(config.keys.public)] return. *)
Definition getStatus (db : DB) (partialState : gmap string jsval)
    (graph : Graph) : Status :=
  let '(fullSynced, totalFull) :=
    fold_left (count_following partialState) (following graph) (0, 0)%nat in
  let '(profilesSynced, contactsSynced, messagesSynced, totalPartial) :=
    fold_left (count_extended partialState) (extended graph)
      (0, 0, 0, 0)%nat in
  mkStatus (log_since (log db)) (idx_seq (fullIndex db))
    (mkPartialStatus totalPartial profilesSynced contactsSynced
       messagesSynced totalFull fullSynced).

End Database.

End Db.
Import Db.

(** ** indexes/full-mentions.js *)

Inductive Completion : Type :=
  | Normal
  | TypeError.

(** A leveldb operation staged in [this.batch]. *)
Record BatchOp : Type := mkBatchOp {
  op_type : string;
  op_key : jsval;
  op_value : Z
}.

Section FullMentions.

(** bipf: buffers, [bipf.seekKey(buffer, start, target)] and
    [bipf.decode(buffer, start)]. *)
Variable Buffer : Type.
Variable seekKey : Buffer → Z → string → Z.
Variable decode : Buffer → Z → jsval.

(** A record as the log streams it: [record.value] is absent for a deleted
    record. *)
Record StreamRecord : Type := mkStreamRecord {
  offset : Z;
  value : option Buffer
}.

(** The fields of the plugin [handleRecord] works on: [this.offset.value]
    and [this.batch]. *)
Record Plugin : Type := mkPlugin {
  offset_value : Z;
  batch : list BatchOp
}.

Definition bKey : string := "key".
Definition bValue : string := "value".
Definition bContent : string := "content".
Definition bMentions : string := "mentions".

(** [v.slice(1, 10)]: strings and arrays have it, on anything else the
    call throws. *)
Definition slice_1_10 (v : jsval) : option jsval :=
  match v with
  | JStr s => Some (JStr (substring 1 9 s))
  | JArr items => Some (JArr (take 9 (drop 1 items)))
  | _ => None
  end.

(** [mention.link && typeof mention.link === 'string' &&
    (mention.link[0] === '@' || mention.link[0] === '%')] *)
Definition is_link (link : jsval) : bool :=
  truthy link && is_string link &&
  match link with
  | JStr s =>
      match first_char s with
      | Some c => Ascii.eqb c "@"%char || Ascii.eqb c "%"%char
      | None => false
      end
  | _ => false
  end.

(** [mentionsData.forEach(...)]: the operations pushed on the batch, up to
    a mention whose [link] cannot be read. *)
Fixpoint push_mentions (shortKey : jsval) (seq : Z) (mentionsData : list jsval)
    (staged : list BatchOp) : list BatchOp * Completion :=
  match mentionsData with
  | [] => (staged, Normal)
  | mention :: rest =>
      match prop mention "link" with
      | None => (staged, TypeError)
      | Some link =>
          push_mentions shortKey seq rest
            (if is_link link
             then staged ++ [mkBatchOp "put" (JArr [link; shortKey]) seq]
             else staged)
      end
  end.

(** [handleRecord(record, seq)]: the batch it leaves and how it completes. *)
Definition handleRecord (this : Plugin) (record : StreamRecord) (seq : Z)
  : list BatchOp * Completion :=
  if offset record <? offset_value this then (batch this, Normal)
  else
    match value record with
    | None => (batch this, Normal)
    | Some recBuffer =>
        let pKey := seekKey recBuffer 0 bKey in
        let p := seekKey recBuffer 0 bValue in
        if p <? 0 then (batch this, Normal) else
        let p := seekKey recBuffer p bContent in
        if p <? 0 then (batch this, Normal) else
        let p := seekKey recBuffer p bMentions in
        if p <? 0 then (batch this, Normal) else
        match decode recBuffer p with
        | JArr mentionsData =>
            match slice_1_10 (decode recBuffer pKey) with
            | None => (batch this, TypeError)
            | Some shortKey =>
                push_mentions shortKey seq mentionsData (batch this)
            end
        | _ => (batch this, Normal)
        end
    end.

End FullMentions.

Arguments offset {Buffer} _.
Arguments value {Buffer} _.
Arguments mkStreamRecord {Buffer} _ _.

(** ** Outcomes of validation *)

(** The messages of a list all pass [f], each on the state the one before
    left: the state the last one leaves. *)
Inductive valid_in_order (f : ValidationState → Msg → Outcome)
  : ValidationState → list Msg → ValidationState → Prop :=
  | valid_none (st : ValidationState) : valid_in_order f st [] st
  | valid_next (st st' : ValidationState) (msg : Msg) (rest : list Msg) :
      reported (f st msg) = None →
      valid_in_order f (state_after (f st msg)) rest st' →
      valid_in_order f st (msg :: rest) st'.

(** Some message of the list fails [f] with [err], those before it having
    passed. *)
Inductive invalid_in_order (f : ValidationState → Msg → Outcome)
  : ValidationState → list Msg → Error → Prop :=
  | invalid_first (st : ValidationState) (msg : Msg) (rest : list Msg)
      (err : Error) :
      reported (f st msg) = Some err →
      invalid_in_order f st (msg :: rest) err
  | invalid_later (st : ValidationState) (msg : Msg) (rest : list Msg)
      (err : Error) :
      reported (f st msg) = None →
      invalid_in_order f (state_after (f st msg)) rest err →
      invalid_in_order f st (msg :: rest) err.

(** What [validateAndAdd] does once the validator has answered: an error
    reported by the outcome goes to the callback, and without one the message
    is added; the state is the one the validator leaves. *)
Definition after_validation (hash : string → string) (stringify : Msg → string)
    (unbox : string → jsval) (db : DB) (msg : Msg) (outcome : Outcome)
  : DB * Cb Stored :=
  match reported outcome with
  | Some err => (with_state (state_after outcome) db, CbErr err)
  | None => add hash stringify unbox (with_state (state_after outcome) db) msg
  end.

(** ** Outcomes of the deletions of [deleteFeed] *)

(** Every record of the list was deleted, one [del] after the other. *)
Inductive deleted_all : DB → list LogRecord → DB → Prop :=
  | deleted_none (db : DB) : deleted_all db [] db
  | deleted_next (db db1 db2 : DB) (msg : LogRecord) (rest : list LogRecord) :
      del db (rec_key msg) = (db1, CbOk tt) →
      deleted_all db1 rest db2 →
      deleted_all db (msg :: rest) db2.

(** The deletions before some record succeeded and the [del] of that record
    called back with [err]: the database the failed [del] leaves, and the
    error. *)
Inductive deletion_fails : DB → list LogRecord → DB → Error → Prop :=
  | fails_first (db db1 : DB) (msg : LogRecord) (rest : list LogRecord)
      (err : Error) :
      del db (rec_key msg) = (db1, CbErr err) →
      deletion_fails db (msg :: rest) db1 err
  | fails_later (db db1 db2 : DB) (msg : LogRecord) (rest : list LogRecord)
      (err : Error) :
      del db (rec_key msg) = (db1, CbOk tt) →
      deletion_fails db1 rest db2 err →
      deletion_fails db (msg :: rest) db2 err.

(** ** Invariants and events *)

(** The watermark of the base index never passes the log's last sequence,
    and a key the index resolves points below the watermark. *)
Definition index_consistent (db : DB) : Prop :=
  (idx_seq (fullIndex db) ≤ length (log db))%nat ∧
  ∀ (k : string) (n : nat),
    idx_keys (fullIndex db) !! k = Some n → (n < idx_seq (fullIndex db))%nat.

(** The index takes as many steps as it is behind the log. *)
Definition catch_up (db : DB) : DB :=
  index_ticks (length (log db) - idx_seq (fullIndex db)) db.

(** A live record with key [id] is resolvable through the index, or waits in
    the part of the log the index has not incorporated yet. *)
Definition stored_or_pending (db : DB) (id : string) : Prop :=
  (∃ (n : nat) (r : LogRecord),
      idx_keys (fullIndex db) !! id = Some n ∧ log db !! n = Some (Some r)) ∨
  (∃ (n : nat) (r : LogRecord),
      (idx_seq (fullIndex db) ≤ n)%nat ∧ log db !! n = Some (Some r) ∧
      rec_key r = id).

(** What happens while a [getSync] waits: the index incorporates a slot and
    notifies the listeners of its watermark, or another message is added. *)
Inductive Event : Type :=
  | IndexProgress
  | AddMessage (msg : Msg).

Section Schedule.

Variable hash : string → string.
Variable stringify : Msg → string.
Variable unbox : string → jsval.

Definition on_event (st : DB * Barrier) (ev : Event) : DB * Barrier :=
  let '(db, b) := st in
  match ev with
  | IndexProgress =>
      let db' := index_tick db in (db', getSync_listener db' b)
  | AddMessage msg => (fst (add hash stringify unbox db msg), b)
  end.

Definition run_events (st : DB * Barrier) (evs : list Event) : DB * Barrier :=
  fold_left on_event evs st.

End Schedule.

(** Between two logs: no slot is lost, and a slot holds what it held or a
    tombstone. *)
Definition slots_kept (l l' : Log) : Prop :=
  ∀ (n : nat) (slot : option LogRecord),
    l !! n = Some slot → l' !! n = Some slot ∨ l' !! n = Some None.

(** The base index resolves the key of every live record of the log to the
    slot of that record. *)
Definition index_exact (db : DB) : Prop :=
  ∀ (n : nat) (r : LogRecord),
    log db !! n = Some (Some r) →
    idx_keys (fullIndex db) !! rec_key r = Some n.

(** A key the base index resolves to a live record is the key of that
    record. *)
Definition index_sound (db : DB) : Prop :=
  ∀ (k : string) (n : nat) (r : LogRecord),
    idx_keys (fullIndex db) !! k = Some n →
    log db !! n = Some (Some r) →
    rec_key r = k.

(** The operation [handleRecord] stages for a mention with link [link]. *)
Definition mention_op (shortKey : jsval) (seq : Z) (link : jsval) : BatchOp :=
  mkBatchOp "put" (JArr [link; shortKey]) seq.

(** The link of a mention that qualifies for the index, if it does. *)
Definition mention_link (mention : jsval) : option jsval :=
  match prop mention "link" with
  | Some link => if is_link link then Some link else None
  | None => None
  end.

(** ** Operations *)

(** The calls a client makes on the database, the progress of the base index
    and a restart over the persisted log and index. *)
Inductive Op : Type :=
  | OpAdd (msg : Msg)
  | OpDel (key : string)
  | OpDeleteFeed (feedId : string)
  | OpValidateAndAdd (msg : Msg)
  | OpValidateAndAddOOO (msg : Msg)
  | OpIndexProgress
  | OpRestart.

Section Operations.

Variable hash : string → string.
Variable stringify : Msg → string.
Variable unbox : string → jsval.
Variable validate_initial : ValidationState.
Variable validate_append : ValidationState → Msg → Outcome.
Variable validate_appendOOO : ValidationState → Msg → Outcome.

Definition apply_op (db : DB) (op : Op) : DB :=
  match op with
  | OpAdd msg => fst (add hash stringify unbox db msg)
  | OpDel key => fst (del db key)
  | OpDeleteFeed feedId => fst (deleteFeed db feedId)
  | OpValidateAndAdd msg =>
      fst (validateAndAdd hash stringify unbox validate_append
             validate_appendOOO db msg)
  | OpValidateAndAddOOO msg =>
      fst (validateAndAddOOO hash stringify unbox validate_initial
             validate_appendOOO db msg)
  | OpIndexProgress => index_tick db
  | OpRestart => init validate_initial (log db) (fullIndex db)
  end.

Definition run_ops (db : DB) (ops : list Op) : DB := fold_left apply_op ops db.

End Operations.

(** ** The moment a [getSync] reads *)

Section ReadPoint.

Variable hash : string → string.
Variable stringify : Msg → string.
Variable unbox : string → jsval.

(** The database after an event of a schedule. *)
Definition event_db (db : DB) (ev : Event) : DB :=
  match ev with
  | IndexProgress => index_tick db
  | AddMessage msg => fst (add hash stringify unbox db msg)
  end.

(** The database at the first moment of a schedule at which the watermark
    of the base index equals the last sequence of the log, if the schedule
    reaches one. *)
Fixpoint first_caught_up (db : DB) (evs : list Event) : option DB :=
  match evs with
  | [] => if caught_up db then Some db else None
  | ev :: rest =>
      if caught_up db then Some db
      else first_caught_up (event_db db ev) rest
  end.

End ReadPoint.

(** ** A validator after the spec, and test data *)

Module Fixture.

Definition hash (s : string) : string := s.
Definition stringify (msg : Msg) : string :=
  String.append (author msg) (String.append "/" (signature msg)).
Definition unbox (cyphertext : string) : jsval :=
  if String.eqb cyphertext "boxed-for-us"
  then JObj [("type", JStr "post")]
  else JUndefined.

Definition getId : Msg → string := getId hash stringify.

(** The signature check, a black box of the spec: here a valid signature
    starts with the text "signed". *)
Definition verify (msg : Msg) : bool := String.prefix "signed" (signature msg).

Definition initial : ValidationState := mkVState ∅ None [].

(** The feed of the author advances to the admitted message. *)
Definition advance (st : ValidationState) (msg : Msg) : ValidationState :=
  mkVState
    (<[author msg := mkFeedState (getId msg) (timestamp msg) (sequence msg) []]>
       (feeds st))
    (error st)
    (queue st ++ [mkRecord (getId msg) msg]).

(** Modelled from the spec: the strict append of the validation engine
    (ssb-validate, not part of the repository sources).  Valid iff the
    sequence is the latest plus one, [previous] is the latest identity, the
    timestamp does not regress and the signature verifies; a feed without
    state starts at sequence 1 with no previous.  A failure throws and
    leaves the state as it was. *)
Definition append (st : ValidationState) (msg : Msg) : Outcome :=
  let '(seq, prev, ts) :=
    match feeds st !! author msg with
    | Some fs => (fs_sequence fs, Some (fs_id fs), fs_timestamp fs)
    | None => (0, None, timestamp msg)
    end in
  if negb (sequence msg =? seq + 1)
  then Throws (ValidationError SequenceGap) st
  else if negb (bool_decide (previous msg = prev))
  then Throws (ValidationError PreviousMismatch) st
  else if timestamp msg <? ts
  then Throws (ValidationError TimestampRegression) st
  else if negb (verify msg)
  then Throws (ValidationError BadSignature) st
  else Returns (advance st msg).

(** Modelled from the spec: the out-of-order append checks the signature
    only, not the chain; the author is KNOWN from the first message
    admitted by either path. *)
Definition appendOOO (st : ValidationState) (msg : Msg) : Outcome :=
  if negb (verify msg)
  then Throws (ValidationError BadSignature) st
  else Returns (advance st msg).

Definition add := add hash stringify unbox.
Definition validateAndAdd :=
  validateAndAdd hash stringify unbox append appendOOO.
Definition validateAndAddOOO :=
  validateAndAddOOO hash stringify unbox initial appendOOO.
Definition addTransaction :=
  addTransaction hash stringify initial append appendOOO.
Definition init := init initial.
Definition run_ops :=
  run_ops hash stringify unbox initial append appendOOO.

Definition alice : string := "@alice".
Definition bob : string := "@bob".
Definition post : jsval := JObj [("type", JStr "post")].

Definition msg1 : Msg := mkMsg alice 1 None 100 post None "signed-a1".
Definition msg2 : Msg :=
  mkMsg alice 2 (Some (getId msg1)) 200 post None "signed-a2".
Definition msg_duplicate : Msg :=
  mkMsg alice 1 (Some (getId msg1)) 200 post None "signed-a1-again".
Definition msg_gap : Msg :=
  mkMsg alice 3 (Some (getId msg1)) 200 post None "signed-a3".
Definition msg_fork : Msg :=
  mkMsg alice 2 (Some "%elsewhere") 200 post None "signed-a2-fork".
Definition msg_early : Msg :=
  mkMsg alice 2 (Some (getId msg1)) 50 post None "signed-a2-early".
Definition msg_forged : Msg :=
  mkMsg alice 2 (Some (getId msg1)) 200 post None "forged".
Definition msg5 : Msg :=
  mkMsg bob 5 (Some "%@bob/signed-b4") 500 post None "signed-b5".
Definition msg_boxed : Msg :=
  mkMsg bob 7 (Some "%@bob/signed-b6") 700 (JStr "boxed-for-us") None
        "signed-b7".
Definition msg_sealed : Msg :=
  mkMsg bob 8 (Some "%@bob/signed-b7") 800 (JStr "boxed-for-others") None
        "signed-b8".

Definition empty_db : DB := mkDB initial [] empty_index.

(** The first message of alice admitted and indexed. *)
Definition db_alice : DB := catch_up (fst (validateAndAdd empty_db msg1)).

(** The first two messages of alice in the log, the index having
    incorporated the first only. *)
Definition db_alice_behind : DB :=
  fst (validateAndAdd db_alice msg2).

(** Test data of the full-mentions index: buffers are strings, every key is
    found at position 0 and every position decodes to one mention of
    alice. *)
Definition test_seekKey (buffer : string) (start : Z) (target : string) : Z := 0.
Definition test_decode (buffer : string) (start : Z) : jsval :=
  JArr [JObj [("link", JStr "@alice")]].
Definition test_plugin : Plugin := mkPlugin 5 [].

(** Modelled from the spec: [appendNew] fills in the local author, the next
    sequence, the latest identity as [previous] and the time, signs the
    message and stages it through the strict append. *)
Definition appendNew (st : ValidationState) (msg_content : jsval) (now : Z)
  : Outcome :=
  let '(seq, prev) :=
    match feeds st !! alice with
    | Some fs => (fs_sequence fs + 1, Some (fs_id fs))
    | None => (1, None)
    end in
  append st (mkMsg alice seq prev now msg_content None "signed-local").

Definition publish := publish hash stringify unbox appendNew.

(** Alice follows bob, fully replicated, and carol, not replicated; dave
    and erin are in the extended graph, dave with profile and contacts. *)
Definition test_graph : Graph :=
  mkGraph ["@bob"; "@carol"] ["@dave"; "@erin"].
Definition test_partial : gmap string jsval :=
  {[ "@bob" := JObj [("full", JBool true)];
     "@dave" := JObj [("syncedProfile", JBool true);
                      ("syncedContacts", JBool true);
                      ("syncedMessages", JBool false)] ]}.


(** A key that also opens the box "boxed-null", whose plaintext is the JSON
    value [null]. *)
Definition unbox_null (cyphertext : string) : jsval :=
  if String.eqb cyphertext "boxed-null" then JNull else unbox cyphertext.
Definition msg_null : Msg :=
  mkMsg bob 9 (Some "%@bob/signed-b8") 900 (JStr "boxed-null") None
        "signed-b9".

End Fixture.

(** * Properties *)

(** ** The log and the base index *)

Lemma log_del_in_range (seq : nat) (l : Log) :
  (seq < length l)%nat → log_del seq l = (<[seq := None]> l, CbOk tt).
Proof.
  intros Hlt. unfold log_del. by rewrite bool_decide_eq_true_2.
Qed.

Lemma log_del_length (seq : nat) (l : Log) :
  length (fst (log_del seq l)) = length l.
Proof.
  unfold log_del. case_bool_decide; simpl; [apply length_insert | done].
Qed.

Lemma index_step_seq_behind (l : Log) (ix : BaseIndex) :
  (idx_seq ix < length l)%nat → idx_seq (index_step l ix) = S (idx_seq ix).
Proof.
  intros Hlt. unfold index_step.
  destruct (lookup_lt_is_Some_2 l (idx_seq ix) Hlt) as [slot Hslot].
  rewrite Hslot. by destruct slot.
Qed.

Lemma index_step_caught_up (l : Log) (ix : BaseIndex) :
  (length l ≤ idx_seq ix)%nat → index_step l ix = ix.
Proof.
  intros Hge. unfold index_step. by rewrite lookup_ge_None_2.
Qed.

Lemma index_step_seq_le (l : Log) (ix : BaseIndex) :
  (idx_seq ix ≤ length l)%nat → (idx_seq (index_step l ix) ≤ length l)%nat.
Proof.
  intros Hle. destruct (decide (idx_seq ix < length l)%nat) as [Hlt|Hge].
  - rewrite index_step_seq_behind; lia.
  - rewrite index_step_caught_up; lia.
Qed.

Lemma index_steps_succ (n : nat) (l : Log) (ix : BaseIndex) :
  index_steps (S n) l ix = index_step l (index_steps n l ix).
Proof.
  revert ix. induction n as [|n IH]; intros ix; [done|].
  change (index_steps (S (S n)) l ix) with (index_steps (S n) l (index_step l ix)).
  rewrite IH. done.
Qed.

Lemma index_steps_seq (n : nat) (l : Log) (ix : BaseIndex) :
  (idx_seq ix + n ≤ length l)%nat →
  idx_seq (index_steps n l ix) = (idx_seq ix + n)%nat.
Proof.
  induction n as [|n IH]; intros Hle.
  - simpl. lia.
  - rewrite index_steps_succ, index_step_seq_behind; rewrite IH; lia.
Qed.

Section DatabaseFacts.

Variable hash : string → string.
Variable stringify : Msg → string.
Variable unbox : string → jsval.
Variable validate_initial : ValidationState.
Variable validate_append : ValidationState → Msg → Outcome.
Variable validate_appendOOO : ValidationState → Msg → Outcome.

Local Abbreviation getId := (getId hash stringify).
Local Abbreviation add := (add hash stringify unbox).
Local Abbreviation store_unencrypted := (store_unencrypted unbox).
Local Abbreviation validateAndAddOOO :=
  (validateAndAddOOO hash stringify unbox validate_initial validate_appendOOO).
Local Abbreviation validateAndAdd :=
  (validateAndAdd hash stringify unbox validate_append validate_appendOOO).

(** *** [add] *)

Lemma add_existing (db : DB) (msg : Msg) (data : LogRecord) :
  getDataFromKey (fullIndex db) (log db) (getId msg) = CbOk data →
  add db msg = (db, CbOk (Existing (rec_value data))).
Proof. intros Hdata. unfold Db.add. by rewrite Hdata. Qed.

Lemma add_appends (db : DB) (msg : Msg) :
  is_err (getDataFromKey (fullIndex db) (log db) (getId msg)) = true →
  add db msg =
    (with_log (log db ++ [Some (mkRecord (getId msg) (store_unencrypted msg))]) db,
     CbOk (Appended (mkRecord (getId msg) (store_unencrypted msg)))).
Proof.
  intros Herr. unfold Db.add.
  destruct (getDataFromKey _ _ _); [done | discriminate].
Qed.

Lemma add_state (db : DB) (msg : Msg) : state (fst (add db msg)) = state db.
Proof.
  unfold Db.add. by destruct (getDataFromKey _ _ _).
Qed.

Lemma add_index (db : DB) (msg : Msg) :
  fullIndex (fst (add db msg)) = fullIndex db.
Proof.
  unfold Db.add. by destruct (getDataFromKey _ _ _).
Qed.

Lemma add_log_grows (db : DB) (msg : Msg) :
  ∃ more, log (fst (add db msg)) = log db ++ more.
Proof.
  unfold Db.add. destruct (getDataFromKey _ _ _); simpl.
  - by eexists.
  - exists []. by rewrite app_nil_r.
Qed.

(** The shared validation state plays no part in [add]. *)
Lemma add_with_state (shared : ValidationState) (db : DB) (msg : Msg) :
  add (with_state shared db) msg =
    (with_state shared (fst (add db msg)), snd (add db msg)).
Proof.
  unfold Db.add. simpl. by destruct (getDataFromKey _ _ _).
Qed.

(** C7 (amended): for a message that is not stored yet, [add] appends one
    record under the message's identity; when the content is a string that
    [keys.unbox] opens to a value that counts as true, the record holds the
    decrypted content and keeps the cyphertext in [meta], tagged private,
    and when [keys.unbox] gives nothing or a value that counts as false (or
    the content is no string) the message is stored as it came. *)
Theorem add_stores_decrypted_content (db : DB) (msg : Msg) :
  is_err (getDataFromKey (fullIndex db) (log db) (getId msg)) = true →
  ∃ stored : Msg,
    add db msg =
      (with_log (log db ++ [Some (mkRecord (getId msg) stored)]) db,
       CbOk (Appended (mkRecord (getId msg) stored))) ∧
    match content msg with
    | JStr cyphertext =>
        if truthy (unbox cyphertext)
        then content stored = unbox cyphertext ∧
             meta stored = Some (mkMeta "true" (JStr cyphertext)) ∧
             author stored = author msg ∧
             sequence stored = sequence msg ∧
             previous stored = previous msg ∧
             timestamp stored = timestamp msg ∧
             signature stored = signature msg
        else stored = msg
    | _ => stored = msg
    end.
Proof.
  intros Hnew. exists (store_unencrypted msg). split.
  - by apply add_appends.
  - unfold Db.store_unencrypted.
    destruct (content msg) as [| | | |cyphertext| |]; try reflexivity.
    destruct (truthy (unbox cyphertext)); [by repeat split | reflexivity].
Qed.

(** *** [validateAndAddOOO] *)

(** C8: [validateAndAddOOO] validates on [validate.initial()]: the shared
    validation state is the same after the call, whatever the validation
    says, and what the call does to the log and hands to its callback does
    not depend on the shared state. *)
Theorem validateAndAddOOO_shared_state (db : DB) (msg : Msg) :
  state (fst (validateAndAddOOO db msg)) = state db ∧
  ∀ shared : ValidationState,
    validateAndAddOOO (with_state shared db) msg =
      (with_state shared (fst (validateAndAddOOO db msg)),
       snd (validateAndAddOOO db msg)).
Proof.
  unfold Db.validateAndAddOOO.
  destruct (validate_appendOOO validate_initial msg) as [st|ex st].
  - destruct (error st) as [err|].
    + by split.
    + split; [apply add_state | intros shared; apply add_with_state].
  - by split.
Qed.

(** *** [del] *)

Lemma del_state (db : DB) (key : string) :
  state (fst (del db key)) = state db.
Proof.
  unfold del, del_resolved.
  destruct (keyToSeq _ _) as [err|[seq|]]; try done.
  by destruct (log_del seq (log db)).
Qed.

Lemma del_index (db : DB) (key : string) :
  fullIndex (fst (del db key)) = fullIndex db.
Proof.
  unfold del, del_resolved.
  destruct (keyToSeq _ _) as [err|[seq|]]; try done.
  by destruct (log_del seq (log db)).
Qed.

(** C9: [del] hands an error to its callback and leaves the database as it
    is when the base index does not resolve the key (an error of the index,
    or no sequence); when the index resolves the key to [seq], the slot
    [seq] of the log is tombstoned and every other slot is as before. *)
Theorem del_tombstones_resolved_sequence (db : DB) (key : string) :
  index_consistent db →
  (∀ err, del_resolved db (CbErr err) = (db, CbErr err)) ∧
  del_resolved db (CbOk None) = (db, CbErr (JsError "seq is null!")) ∧
  match idx_keys (fullIndex db) !! key with
  | None => del db key = (db, CbErr NotFound)
  | Some seq =>
      del db key = (with_log (<[seq := None]> (log db)) db, CbOk tt) ∧
      log (fst (del db key)) !! seq = Some None ∧
      (∀ n : nat, n ≠ seq → log (fst (del db key)) !! n = log db !! n) ∧
      length (log (fst (del db key))) = length (log db)
  end.
Proof.
  intros [Hbehind Hkeys]. split; [done|]. split; [done|].
  unfold del, keyToSeq.
  destruct (idx_keys (fullIndex db) !! key) as [seq|] eqn:Hkey; [|done].
  assert (seq < length (log db))%nat as Hlt.
  { specialize (Hkeys key seq Hkey). lia. }
  unfold del_resolved. rewrite (log_del_in_range _ _ Hlt). simpl.
  split; [done|]. split; [by apply list_lookup_insert_eq|].
  split; [|apply length_insert].
  intros n Hne. by apply list_lookup_insert_ne.
Qed.

End DatabaseFacts.

(** ** [deleteFeed] *)

Lemma del_each_state (results : list LogRecord) (db : DB) :
  state (fst (del_each db results)) = state db ∧
  fullIndex (fst (del_each db results)) = fullIndex db.
Proof.
  revert db. induction results as [|msg rest IH]; intros db; [done|].
  simpl. pose proof (del_state db (rec_key msg)) as Hst.
  pose proof (del_index db (rec_key msg)) as Hix.
  destruct (del db (rec_key msg)) as [db1 [err|[]]]; simpl in *.
  - done.
  - destruct (IH db1) as [-> ->]. done.
Qed.

Lemma del_each_outcome (results : list LogRecord) (db : DB) :
  match del_each db results with
  | (db1, None) => deleted_all db results db1
  | (db1, Some err) => deletion_fails db results db1 err
  end.
Proof.
  revert db. induction results as [|msg rest IH]; intros db.
  - simpl. constructor.
  - simpl. destruct (del db (rec_key msg)) as [db1 [err|[]]] eqn:Hdel.
    + by constructor.
    + specialize (IH db1). destruct (del_each db1 rest) as [db2 [err|]].
      * by eapply fails_later.
      * by eapply deleted_next.
Qed.

(** C6: [deleteFeed] deletes the records of the feed one after the other.
    Either every deletion succeeded, and then the feed is gone from
    [state.feeds] and from the latest entries of the base index and the
    callback gets no error; or one deletion failed, and then the callback
    gets its error and [state.feeds] and the base index are as they were
    (the log keeps the tombstones of the deletions before the failure). *)
Theorem deleteFeed_cleanup_all_or_nothing (db : DB) (feedId : string) :
  let results := query_author (log db) feedId in
  (∃ db1 : DB,
      deleted_all db results db1 ∧
      deleteFeed db feedId =
        (mkDB (mkVState (delete feedId (feeds (state db)))
                        (error (state db)) (queue (state db)))
              (log db1)
              (removeFeedFromLatest feedId (fullIndex db)),
         CbOk tt) ∧
      feeds (state (fst (deleteFeed db feedId))) !! feedId = None ∧
      idx_latest (fullIndex (fst (deleteFeed db feedId))) !! feedId = None) ∨
  (∃ (db1 : DB) (err : Error),
      deletion_fails db results db1 err ∧
      deleteFeed db feedId = (db1, CbErr err) ∧
      state db1 = state db ∧
      fullIndex db1 = fullIndex db).
Proof.
  intros results. unfold deleteFeed, deleteFeed_results. fold results.
  pose proof (del_each_outcome results db) as Hout.
  destruct (del_each_state results db) as [Hst Hix].
  destruct (del_each db results) as [db1 [err|]]; simpl in *.
  - right. exists db1, err. done.
  - left. exists db1. rewrite Hst, Hix. split; [done|]. split; [done|].
    simpl. split; apply lookup_delete_eq.
Qed.

(** ** [FullMentions.handleRecord] *)

Section FullMentionsFacts.

Variable Buffer : Type.
Variable seekKey : Buffer → Z → string → Z.
Variable decode : Buffer → Z → jsval.

(** C10: a record whose offset is below [this.offset.value], or whose
    value is absent because the record was deleted, leaves the batch as it
    is and [handleRecord] returns normally. *)
Theorem handleRecord_skips (this : Plugin) (record : StreamRecord Buffer)
    (seq : Z) :
  offset record < offset_value this ∨ value record = None →
  handleRecord Buffer seekKey decode this record seq = (batch this, Normal).
Proof.
  intros [Hbelow|Hdeleted]; unfold handleRecord.
  - by rewrite (proj2 (Z.ltb_lt _ _) Hbelow).
  - rewrite Hdeleted. by destruct (offset record <? offset_value this).
Qed.

End FullMentionsFacts.

(** ** The index catching up with the log *)

Lemma index_tick_consistent (db : DB) :
  index_consistent db → index_consistent (index_tick db).
Proof.
  intros [Hbehind Hkeys]. split.
  - simpl. by apply index_step_seq_le.
  - intros k n. simpl. unfold index_step.
    destruct (log db !! idx_seq (fullIndex db)) as [[r|]|] eqn:Hslot; simpl.
    + rewrite lookup_insert. case_decide.
      * intros [= <-]. lia.
      * intros Hk. specialize (Hkeys k n Hk). lia.
    + intros Hk. specialize (Hkeys k n Hk). lia.
    + apply Hkeys.
Qed.

Lemma del_consistent (db : DB) (key : string) :
  index_consistent db → index_consistent (fst (del db key)).
Proof.
  intros [Hbehind Hkeys]. unfold index_consistent.
  rewrite del_index. split; [|done].
  unfold del, del_resolved.
  destruct (keyToSeq _ _) as [err|[seq|]]; try done.
  pose proof (log_del_length seq (log db)) as Hlen.
  destruct (log_del seq (log db)) as [l r]. simpl in *. lia.
Qed.

Lemma index_ticks_seq (n : nat) (db : DB) :
  (idx_seq (fullIndex db) + n ≤ length (log db))%nat →
  idx_seq (fullIndex (index_ticks n db)) = (idx_seq (fullIndex db) + n)%nat.
Proof. intros Hle. simpl. by apply index_steps_seq. Qed.

Lemma catch_up_caught_up (db : DB) :
  (idx_seq (fullIndex db) ≤ length (log db))%nat →
  caught_up (catch_up db) = true.
Proof.
  intros Hle. unfold caught_up, catch_up, log_since.
  apply bool_decide_eq_true_2. rewrite index_ticks_seq; simpl; lia.
Qed.

(** Once the index has incorporated a log that ends with the record [r], the
    key of [r] resolves to that last slot. *)
Lemma index_steps_resolve_last (l : Log) (r : LogRecord) (ix : BaseIndex) :
  (idx_seq ix ≤ length l)%nat →
  idx_keys (index_steps (length (l ++ [Some r]) - idx_seq ix) (l ++ [Some r]) ix)
    !! rec_key r = Some (length l).
Proof.
  intros Hle. rewrite length_app. simpl.
  replace (length l + 1 - idx_seq ix)%nat with (S (length l - idx_seq ix)) by lia.
  rewrite index_steps_succ.
  assert (idx_seq (index_steps (length l - idx_seq ix) (l ++ [Some r]) ix)
          = length l) as Hseq.
  { rewrite index_steps_seq; [lia|]. rewrite length_app. simpl. lia. }
  unfold index_step. rewrite Hseq.
  rewrite lookup_app_r by lia. rewrite Nat.sub_diag. simpl.
  apply lookup_insert_eq.
Qed.

Lemma index_tick_stored_or_pending (db : DB) (id : string) :
  stored_or_pending db id → stored_or_pending (index_tick db) id.
Proof.
  unfold stored_or_pending. simpl. unfold index_step.
  intros Hsp.
  destruct (log db !! idx_seq (fullIndex db)) as [[r0|]|] eqn:Hslot0; simpl;
    [| |done].
  - destruct (decide (rec_key r0 = id)) as [Heq|Hne].
    + left. exists (idx_seq (fullIndex db)), r0.
      by rewrite <- Heq, lookup_insert_eq.
    + destruct Hsp as [(n & r & Hkey & Hslot)|(n & r & Hge & Hslot & Hid)].
      * left. exists n, r. by rewrite lookup_insert_ne.
      * right. exists n, r. split; [|done].
        destruct (decide (n = idx_seq (fullIndex db))) as [->|Hn]; [|lia].
        congruence.
  - destruct Hsp as [(n & r & Hkey & Hslot)|(n & r & Hge & Hslot & Hid)].
    + left. by exists n, r.
    + right. exists n, r. split; [|done].
      destruct (decide (n = idx_seq (fullIndex db))) as [->|Hn]; [|lia].
      congruence.
Qed.

Section BarrierFacts.

Variable hash : string → string.
Variable stringify : Msg → string.
Variable unbox : string → jsval.

Local Abbreviation getId := (getId hash stringify).
Local Abbreviation add := (add hash stringify unbox).
Local Abbreviation store_unencrypted := (store_unencrypted unbox).
Local Abbreviation run := (run_events hash stringify unbox).
Local Abbreviation step := (on_event hash stringify unbox).

Lemma add_consistent (db : DB) (msg : Msg) :
  index_consistent db → index_consistent (fst (add db msg)).
Proof.
  intros [Hbehind Hkeys]. unfold index_consistent.
  rewrite add_index. split; [|done].
  destruct (add_log_grows hash stringify unbox db msg) as [more ->].
  rewrite length_app. lia.
Qed.

Lemma add_keeps_stored_or_pending (db : DB) (msg : Msg) (id : string) :
  stored_or_pending db id → stored_or_pending (fst (add db msg)) id.
Proof.
  unfold stored_or_pending. rewrite add_index.
  destruct (add_log_grows hash stringify unbox db msg) as [more ->].
  intros [(n & r & Hkey & Hslot)|(n & r & Hge & Hslot & Hid)].
  - left. exists n, r. split; [done|].
    rewrite lookup_app_l; [done | by eapply lookup_lt_Some].
  - right. exists n, r. split; [done|]. split; [|done].
    rewrite lookup_app_l; [done | by eapply lookup_lt_Some].
Qed.

(** After [add], the message is resolvable or waits for the index. *)
Lemma add_stored_or_pending (db : DB) (msg : Msg) :
  index_consistent db → stored_or_pending (fst (add db msg)) (getId msg).
Proof.
  intros [Hbehind _]. unfold Db.add, stored_or_pending.
  destruct (getDataFromKey _ _ _) as [err|data] eqn:Hdata; simpl.
  - right. exists (length (log db)).
    exists (mkRecord (getId msg) (store_unencrypted msg)).
    split; [done|]. split; [|reflexivity].
    rewrite lookup_app_r by lia. by rewrite Nat.sub_diag.
  - left. unfold getDataFromKey in Hdata.
    destruct (idx_keys (fullIndex db) !! getId msg) as [n|]; [|done].
    destruct (log db !! n) as [[r|]|] eqn:Hslot; try done.
    by exists n, r.
Qed.

Lemma run_index_progress (n : nat) (db : DB) (b : Barrier) :
  fst (run (db, b) (repeat IndexProgress n)) = index_ticks n db.
Proof.
  revert db b. induction n as [|n IH]; intros db b.
  - by destruct db.
  - change (repeat IndexProgress (S n)) with (IndexProgress :: repeat IndexProgress n).
    change (run (db, b) (IndexProgress :: repeat IndexProgress n))
      with (run (index_tick db, getSync_listener (index_tick db) b)
              (repeat IndexProgress n)).
    rewrite IH. done.
Qed.

(** C2 (amended): [add] of a message whose identity the base index
    resolves hands the stored value to the callback and leaves the log as
    it is.  For a message that does not resolve, [add] appends one record;
    once the base index has caught up with the log, a second [add] of the
    same message appends nothing and hands back the message the first one
    stored: the two calls leave exactly one new record. *)
Theorem add_twice_once_indexed (db : DB) (msg : Msg) :
  index_consistent db →
  (∀ data : LogRecord,
     getDataFromKey (fullIndex db) (log db) (getId msg) = CbOk data →
     add db msg = (db, CbOk (Existing (rec_value data)))) ∧
  (is_err (getDataFromKey (fullIndex db) (log db) (getId msg)) = true →
     let stored := mkRecord (getId msg) (store_unencrypted msg) in
     let db1 := fst (add db msg) in
     let db2 := catch_up db1 in
     snd (add db msg) = CbOk (Appended stored) ∧
     log db1 = log db ++ [Some stored] ∧
     add db2 msg = (db2, CbOk (Existing (rec_value stored))) ∧
     log (fst (add db2 msg)) = log db ++ [Some stored]).
Proof.
  intros [Hbehind _]. split; [apply add_existing|].
  intros Hnew. cbv zeta.
  rewrite (add_appends hash stringify unbox db msg Hnew). cbn [fst snd].
  set (stored := mkRecord (getId msg) (store_unencrypted msg)).
  set (db2 := catch_up (with_log (log db ++ [Some stored]) db)).
  assert (getDataFromKey (fullIndex db2) (log db2) (getId msg) = CbOk stored)
    as Hdata.
  { unfold getDataFromKey. subst db2. unfold catch_up. simpl.
    pose proof (index_steps_resolve_last (log db) stored (fullIndex db)
                  Hbehind) as Hkey.
    change (rec_key stored) with (getId msg) in Hkey. rewrite Hkey.
    rewrite lookup_app_r by lia. by rewrite Nat.sub_diag. }
  split; [done|]. split; [done|].
  rewrite (add_existing hash stringify unbox db2 msg stored Hdata).
  split; done.
Qed.

End BarrierFacts.

(** ** [getSync] *)

Section GetSyncFacts.

Variable hash : string → string.
Variable stringify : Msg → string.
Variable unbox : string → jsval.

Local Abbreviation getId := (Db.getId hash stringify).
Local Abbreviation add := (Db.add hash stringify unbox).
Local Abbreviation store_unencrypted := (Db.store_unencrypted unbox).
Local Abbreviation run := (run_events hash stringify unbox).
Local Abbreviation step := (on_event hash stringify unbox).
Local Abbreviation after := (event_db hash stringify unbox).
Local Abbreviation read_point := (first_caught_up hash stringify unbox).

Lemma on_event_db (db : DB) (b : Barrier) (ev : Event) :
  fst (step (db, b) ev) = after db ev.
Proof. by destruct ev. Qed.

(** Once the listener is removed, nothing more is delivered. *)
Lemma run_events_delivered (evs : list Event) (db : DB) (rs : list (Cb Msg)) :
  snd (run (db, mkBarrier None rs) evs) = mkBarrier None rs.
Proof.
  revert db. induction evs as [|ev evs IH]; intros db; [done|].
  destruct ev as [|msg]; apply IH.
Qed.

Lemma read_point_caught_up (db : DB) (evs : list Event) :
  caught_up db = true → read_point db evs = Some db.
Proof. intros Hup. destruct evs; simpl; by rewrite Hup. Qed.

Lemma read_point_behind (db : DB) (ev : Event) (evs : list Event) :
  caught_up db = false →
  read_point db (ev :: evs) = read_point (after db ev) evs.
Proof. intros Hbehind. simpl. by rewrite Hbehind. Qed.

(** An [add] does not bring the index level with the log. *)
Lemma add_stays_behind (db : DB) (msg : Msg) :
  index_consistent db → caught_up db = false →
  caught_up (fst (add db msg)) = false.
Proof.
  intros [Hle _] Hbehind. unfold caught_up, log_since in *.
  apply bool_decide_eq_false_1 in Hbehind. apply bool_decide_eq_false_2.
  rewrite add_index.
  destruct (add_log_grows hash stringify unbox db msg) as [more ->].
  rewrite length_app. lia.
Qed.

Lemma event_db_consistent (db : DB) (ev : Event) :
  index_consistent db → index_consistent (after db ev).
Proof.
  destruct ev as [|msg]; simpl.
  - apply index_tick_consistent.
  - apply add_consistent.
Qed.

Lemma index_tick_sound (db : DB) :
  index_sound db → index_sound (index_tick db).
Proof.
  intros Hsound k n r. simpl. unfold index_step.
  destruct (log db !! idx_seq (fullIndex db)) as [[r0|]|] eqn:Hslot; simpl;
    [| apply Hsound | apply Hsound].
  destruct (decide (rec_key r0 = k)) as [<-|Hne].
  - rewrite lookup_insert_eq. intros [= <-]. rewrite Hslot. by intros [= <-].
  - rewrite lookup_insert_ne by done. apply Hsound.
Qed.

Lemma add_sound (db : DB) (msg : Msg) :
  index_consistent db → index_sound db → index_sound (fst (add db msg)).
Proof.
  intros [Hle Hkeys] Hsound k n r. rewrite add_index.
  destruct (add_log_grows hash stringify unbox db msg) as [more ->].
  intros Hk. specialize (Hkeys k n Hk).
  rewrite lookup_app_l by lia. by apply Hsound.
Qed.

Lemma event_db_sound (db : DB) (ev : Event) :
  index_consistent db → index_sound db → index_sound (after db ev).
Proof.
  destruct ev as [|msg]; simpl.
  - intros _. apply index_tick_sound.
  - apply add_sound.
Qed.

Lemma event_db_stored_or_pending (db : DB) (ev : Event) (id : string) :
  stored_or_pending db id → stored_or_pending (after db ev) id.
Proof.
  destruct ev as [|msg]; simpl.
  - apply index_tick_stored_or_pending.
  - apply add_keeps_stored_or_pending.
Qed.

(** What holds of a database and is kept by every event holds at the
    moment the read is made, and the index is level with the log then. *)
Lemma read_point_reached (P : DB → Prop) (evs : list Event) (db d : DB) :
  (∀ (d0 : DB) (ev : Event), P d0 → P (after d0 ev)) →
  P db → read_point db evs = Some d → P d ∧ caught_up d = true.
Proof.
  intros Hkept. revert db.
  induction evs as [|ev evs IH]; intros db HP; simpl;
    destruct (caught_up db) eqn:Hup; try done.
  - by intros [= <-].
  - by intros [= <-].
  - apply IH. by apply Hkept.
Qed.

(** A waiting [getSync] has delivered nothing until the first moment the
    index is level with the log, and from then on the one read made at that
    moment. *)
Lemma run_events_waiting (evs : list Event) (db : DB) (id : string) :
  index_consistent db → caught_up db = false →
  snd (run (db, mkBarrier (Some id) []) evs)
    = match read_point db evs with
      | Some d => mkBarrier None [get d id]
      | None => mkBarrier (Some id) []
      end.
Proof.
  revert db. induction evs as [|ev evs IH]; intros db Hcons Hbehind.
  - simpl. by rewrite Hbehind.
  - rewrite read_point_behind by done.
    destruct ev as [|msg].
    + change (run (db, mkBarrier (Some id) []) (IndexProgress :: evs))
        with (run (index_tick db,
                   getSync_listener (index_tick db) (mkBarrier (Some id) []))
                evs).
      change (after db IndexProgress) with (index_tick db).
      unfold getSync_listener. cbn [listening delivered].
      destruct (caught_up (index_tick db)) eqn:Hup.
      * rewrite read_point_caught_up by done. apply run_events_delivered.
      * apply IH; [by apply index_tick_consistent | done].
    + change (run (db, mkBarrier (Some id) []) (AddMessage msg :: evs))
        with (run (fst (add db msg), mkBarrier (Some id) []) evs).
      apply IH; [by apply add_consistent | by apply add_stays_behind].
Qed.

Lemma run_events_getSync (evs : list Event) (db : DB) (id : string) :
  index_consistent db →
  snd (run (db, getSync db id) evs)
    = match read_point db evs with
      | Some d => mkBarrier None [get d id]
      | None => mkBarrier (Some id) []
      end.
Proof.
  intros Hcons. unfold getSync. destruct (caught_up db) eqn:Hup.
  - rewrite read_point_caught_up by done. apply run_events_delivered.
  - by apply run_events_waiting.
Qed.

(** With nothing but index progress the read is made once the index has
    taken the steps it was behind. *)
Lemma read_point_index_progress (n : nat) (db : DB) (further : nat) :
  index_consistent db →
  (length (log db) - idx_seq (fullIndex db))%nat = n →
  read_point db (repeat IndexProgress (n + further)) = Some (index_ticks n db).
Proof.
  revert db. induction n as [|n IH]; intros db Hcons Hn.
  - destruct Hcons as [Hle _]. rewrite read_point_caught_up.
    + by destruct db.
    + apply bool_decide_eq_true_2. unfold log_since. lia.
  - change (repeat IndexProgress (S n + further))
      with (IndexProgress :: repeat IndexProgress (n + further)).
    rewrite read_point_behind.
    + change (after db IndexProgress) with (index_tick db).
      rewrite IH; [done | by apply index_tick_consistent |].
      simpl. rewrite index_step_seq_behind; lia.
    + apply bool_decide_eq_false_2. unfold log_since. lia.
Qed.

(** A resolvable key reads the record in its slot. *)
Lemma get_resolved (db : DB) (id : string) :
  index_sound db → stored_or_pending db id → caught_up db = true →
  ∃ (n : nat) (r : LogRecord),
    idx_keys (fullIndex db) !! id = Some n ∧
    log db !! n = Some (Some r) ∧ rec_key r = id ∧
    get db id = CbOk (rec_value r).
Proof.
  intros Hsound Hsp Hup.
  apply bool_decide_eq_true_1 in Hup. unfold log_since in Hup.
  destruct Hsp as [(n & r & Hkey & Hslot)|(n & r & Hge & Hslot & _)].
  - exists n, r. split; [done|]. split; [done|].
    split; [by eapply Hsound|].
    unfold get, getDataFromKey. by rewrite Hkey, Hslot.
  - apply lookup_lt_Some in Hslot. lia.
Qed.

(** C5: for every identity, [getSync] reads at once when the watermark of
    the base index equals the last sequence of the log, and otherwise
    registers its listener; whatever index progress and further adds follow,
    nothing is delivered while the index has not been level with the log,
    and from the first moment it is, exactly one result is delivered, the
    listener is removed, and the result is what [get] reads at that moment.
    For a [getSync] of the identity of a message after its [add], that
    result is never NotFound: it is the value of a live record of the log
    stored under that identity, which the base index resolves the identity
    to.  The read is made once the index has taken the steps it was behind,
    and for a message that [add] appended it then delivers the message in
    the form it was stored in. *)
Theorem getSync_reads_the_added_message (db : DB) (msg : Msg) :
  index_consistent db →
  index_sound db →
  let id := getId msg in
  let db1 := fst (add db msg) in
  let behind := (length (log db1) - idx_seq (fullIndex db1))%nat in
  (∀ (db0 : DB) (id0 : string),
     getSync db0 id0
       = if caught_up db0 then mkBarrier None [get db0 id0]
         else mkBarrier (Some id0) []) ∧
  (∀ (db0 : DB) (id0 : string) (evs : list Event),
     index_consistent db0 →
     snd (run (db0, getSync db0 id0) evs)
       = match read_point db0 evs with
         | Some read_at => mkBarrier None [get read_at id0]
         | None => mkBarrier (Some id0) []
         end) ∧
  (∀ evs : list Event,
     match read_point db1 evs with
     | Some read_at =>
         ∃ (n : nat) (r : LogRecord),
           idx_keys (fullIndex read_at) !! id = Some n ∧
           log read_at !! n = Some (Some r) ∧
           rec_key r = id ∧
           get read_at id = CbOk (rec_value r) ∧
           snd (run (db1, getSync db1 id) evs)
             = mkBarrier None [CbOk (rec_value r)]
     | None => snd (run (db1, getSync db1 id) evs) = mkBarrier (Some id) []
     end) ∧
  (∀ further : nat,
     read_point db1 (repeat IndexProgress (behind + further))
       = Some (catch_up db1)) ∧
  (is_err (getDataFromKey (fullIndex db) (log db) id) = true →
   ∀ further : nat,
     snd (run (db1, getSync db1 id) (repeat IndexProgress (behind + further)))
       = mkBarrier None [CbOk (store_unencrypted msg)]).
Proof.
  intros Hcons Hsound id db1 behind.
  assert (index_consistent db1) as Hcons1 by by apply add_consistent.
  assert (∀ further : nat,
            read_point db1 (repeat IndexProgress (behind + further))
              = Some (catch_up db1)) as Hlive.
  { intros further. by apply read_point_index_progress. }
  split; [done|]. split; [intros; by apply run_events_getSync|].
  split; [|split; [done|]].
  - intros evs. rewrite run_events_getSync by done.
    destruct (read_point db1 evs) as [read_at|] eqn:Hread; [|done].
    destruct (read_point_reached
                (λ d, index_consistent d ∧ index_sound d
                      ∧ stored_or_pending d id)
                evs db1 read_at) as [(_ & Hsound' & Hsp) Hup]; [| |done|].
    + intros d0 ev (Hc & Hs & Hp).
      split; [by apply event_db_consistent|].
      split; [by apply event_db_sound | by apply event_db_stored_or_pending].
    + split; [done|]. split; [by apply add_sound|].
      by apply add_stored_or_pending.
    + destruct (get_resolved read_at id Hsound' Hsp Hup)
        as (n & r & Hkey & Hslot & Hid & Hget).
      exists n, r. by rewrite Hget.
  - intros Hnew further. rewrite run_events_getSync by done.
    rewrite Hlive. do 2 f_equal.
    destruct Hcons as [Hbehind _]. subst db1.
    rewrite (add_appends hash stringify unbox db msg Hnew). cbn [fst].
    set (stored := mkRecord (getId msg) (store_unencrypted msg)).
    unfold get, getDataFromKey, catch_up. simpl.
    pose proof (index_steps_resolve_last (log db) stored (fullIndex db) Hbehind)
      as Hkey.
    change (rec_key stored) with (getId msg) in Hkey.
    unfold id. rewrite Hkey.
    rewrite lookup_app_r by lia. by rewrite Nat.sub_diag.
Qed.

End GetSyncFacts.

(** ** Validation and ingestion *)

Lemma with_state_same (db : DB) : with_state (state db) db = db.
Proof. by destruct db. Qed.

Lemma key_in_own {V} (k : string) (o : gmap string V) :
  is_Some (o !! k) → key_in k o = true.
Proof.
  intros Hk. unfold key_in. by rewrite bool_decide_eq_true_2.
Qed.

Section ValidationFacts.

Variable hash : string → string.
Variable stringify : Msg → string.
Variable unbox : string → jsval.
Variable validate_initial : ValidationState.
Variable validate_append : ValidationState → Msg → Outcome.
Variable validate_appendOOO : ValidationState → Msg → Outcome.

Local Abbreviation getId := (getId hash stringify).
Local Abbreviation add := (add hash stringify unbox).
Local Abbreviation validateAndAddOOO :=
  (validateAndAddOOO hash stringify unbox validate_initial validate_appendOOO).
Local Abbreviation validateAndAdd :=
  (validateAndAdd hash stringify unbox validate_append validate_appendOOO).
Local Abbreviation validate_ordered := (validate_ordered validate_append).
Local Abbreviation validate_ooo :=
  (validate_ooo validate_initial validate_appendOOO).
Local Abbreviation addTransaction :=
  (addTransaction hash stringify validate_initial validate_append
     validate_appendOOO).
Local Abbreviation transaction_records :=
  (transaction_records hash stringify).

Local Abbreviation continue := (after_validation hash stringify unbox).

Lemma validateAndAdd_known (db : DB) (msg : Msg) :
  key_in (author msg) (feeds (state db)) = true →
  validateAndAdd db msg =
    continue db msg (validate_append (state db) msg).
Proof.
  intros Hknown. unfold Db.validateAndAdd, after_validation.
  rewrite Hknown. simpl.
  destruct (validate_append (state db) msg) as [st|ex st]; simpl; [|done].
  by destruct (error st).
Qed.

Lemma validateAndAdd_unknown (db : DB) (msg : Msg) :
  key_in (author msg) (feeds (state db)) = false →
  validateAndAdd db msg =
    continue db msg (validate_appendOOO (state db) msg).
Proof.
  intros Hunknown. unfold Db.validateAndAdd, after_validation.
  rewrite Hunknown. simpl.
  destruct (validate_appendOOO (state db) msg) as [st|ex st]; simpl; [|done].
  by destruct (error st).
Qed.

Lemma after_validation_state (db : DB) (msg : Msg) (outcome : Outcome) :
  state (fst (continue db msg outcome)) = state_after outcome.
Proof.
  unfold after_validation. destruct (reported outcome); [done|].
  by rewrite add_state.
Qed.

Lemma after_validation_accepted (db : DB) (msg : Msg) (outcome : Outcome) :
  is_err (snd (continue db msg outcome)) = false →
  reported outcome = None.
Proof.
  unfold after_validation. by destruct (reported outcome).
Qed.

Lemma validateAndAddOOO_state (db : DB) (msg : Msg) :
  state (fst (validateAndAddOOO db msg)) = state db.
Proof.
  unfold Db.validateAndAddOOO.
  destruct (validate_appendOOO validate_initial msg) as [st|ex st]; [|done].
  destruct (error st); [done | apply add_state].
Qed.


Lemma restore_known (last : gmap string Latest) (st : ValidationState)
    (feedId : string) (l : Latest) :
  last !! feedId = Some l →
  feeds (restore last st) !! feedId
    = Some (mkFeedState (latest_id l) (latest_timestamp l)
                        (latest_sequence l) []).
Proof.
  intros Hlast. unfold restore. simpl.
  apply lookup_union_Some_l. by rewrite lookup_fmap, Hlast.
Qed.

(** C4 (amended): [validateAndAddOOO] leaves the shared validation state,
    and so the set of KNOWN authors, as it is.  [validateAndAdd] on a
    message of a KNOWN author runs the strict append and never the
    out-of-order one: the result is the same whatever the out-of-order
    validator is, and a message it admits has passed the strict append.
    On a message of an author that is not in [state.feeds] it runs the
    out-of-order append on the shared state and keeps the state that call
    leaves.  At start-up every author with a latest entry in the base index
    is KNOWN, at the sequence of that entry. *)
Theorem validateAndAdd_routes_by_known_author (db : DB) (msg : Msg) :
  state (fst (validateAndAddOOO db msg)) = state db ∧
  (is_Some (feeds (state db) !! author msg) →
     (∀ other : ValidationState → Msg → Outcome,
        Db.validateAndAdd hash stringify unbox validate_append other
          db msg = validateAndAdd db msg) ∧
     state (fst (validateAndAdd db msg))
       = state_after (validate_append (state db) msg) ∧
     (is_err (snd (validateAndAdd db msg)) = false →
        reported (validate_append (state db) msg) = None)) ∧
  (key_in (author msg) (feeds (state db)) = false →
     (∀ other : ValidationState → Msg → Outcome,
        Db.validateAndAdd hash stringify unbox other
          validate_appendOOO db msg = validateAndAdd db msg) ∧
     state (fst (validateAndAdd db msg))
       = state_after (validate_appendOOO (state db) msg)) ∧
  (∀ (feedId : string) (l : Latest),
     getAllLatest (fullIndex db) !! feedId = Some l →
     fs_sequence <$>
       feeds (state (init validate_initial (log db) (fullIndex db))) !! feedId
       = Some (latest_sequence l)).
Proof.
  split; [apply validateAndAddOOO_state|]. split; [|split].
  - intros Hknown. apply key_in_own in Hknown.
    split; [|split].
    + intros other. unfold Db.validateAndAdd. by rewrite Hknown.
    + rewrite validateAndAdd_known by done. apply after_validation_state.
    + rewrite validateAndAdd_known by done. apply after_validation_accepted.
  - intros Hunknown. split.
    + intros other. unfold Db.validateAndAdd. by rewrite Hunknown.
    + rewrite validateAndAdd_unknown by done. apply after_validation_state.
  - intros feedId l Hlatest.
    change (state (init validate_initial (log db) (fullIndex db)))
      with (restore (getAllLatest (fullIndex db)) validate_initial).
    by rewrite (restore_known _ _ _ _ Hlatest).
Qed.

(** *** [addTransaction] *)

Lemma validate_ordered_outcome (msgs : list Msg) (st : ValidationState) :
  match validate_ordered st msgs with
  | inl err => invalid_in_order validate_append st msgs err
  | inr scratch => valid_in_order validate_append st msgs scratch
  end.
Proof.
  revert st. induction msgs as [|msg rest IH]; intros st; simpl.
  - constructor.
  - destruct (reported (validate_append st msg)) as [err|] eqn:Hrep.
    + by constructor.
    + specialize (IH (state_after (validate_append st msg))).
      destruct (validate_ordered _ rest) as [err|scratch].
      * by apply invalid_later.
      * by apply valid_next.
Qed.

Lemma valid_in_order_validate (msgs : list Msg) (st scratch : ValidationState) :
  valid_in_order validate_append st msgs scratch →
  validate_ordered st msgs = inr scratch.
Proof.
  induction 1 as [st|st st' msg rest Hok _ IH]; simpl; [done|].
  by rewrite Hok.
Qed.

Lemma invalid_in_order_validate (msgs : list Msg) (st : ValidationState)
    (err : Error) :
  invalid_in_order validate_append st msgs err →
  validate_ordered st msgs = inl err.
Proof.
  induction 1 as [st msg rest err Hfail|st msg rest err Hok _ IH]; simpl.
  - by rewrite Hfail.
  - by rewrite Hok.
Qed.

Lemma validate_ooo_all_valid (msgs : list Msg) :
  Forall (λ msg, reported (validate_appendOOO validate_initial msg) = None)
    msgs ↔ validate_ooo msgs = None.
Proof.
  induction msgs as [|msg rest IH]; simpl.
  - split; [done | constructor].
  - destruct (reported (validate_appendOOO validate_initial msg)) eqn:Hrep.
    + split; [|done]. intros Hall. inversion Hall; congruence.
    + rewrite <- IH. split.
      * intros Hall. by inversion Hall.
      * intros Hall. by constructor.
Qed.

Lemma validate_ooo_some_invalid (msgs : list Msg) :
  Exists (λ msg,
            is_Some (reported (validate_appendOOO validate_initial msg)))
    msgs → is_Some (validate_ooo msgs).
Proof.
  induction 1 as [msg rest [err Hfail]|msg rest _ IH]; simpl.
  - rewrite Hfail. by eexists.
  - destruct (reported (validate_appendOOO validate_initial msg));
      [by eexists | done].
Qed.

Lemma validate_ooo_failure (msgs : list Msg) :
  is_Some (validate_ooo msgs) →
  Exists (λ msg,
            is_Some (reported (validate_appendOOO validate_initial msg)))
    msgs.
Proof.
  induction msgs as [|msg rest IH]; simpl.
  - by intros [? ?].
  - destruct (reported (validate_appendOOO validate_initial msg)) eqn:Hrep.
    + intros _. apply Exists_cons_hd. rewrite Hrep. by eexists.
    + intros Hrest. apply Exists_cons_tl. by apply IH.
Qed.

(** C1: [addTransaction] is all-or-none.  When the validation of a message
    of the ordered set fails (those before it having passed), or that of a
    message of the out-of-order set, the callback gets an error and the
    database, its log with it, is as before.  When every validation of
    both sets succeeds, the records of all messages are appended to the
    log, one per message, and the validation state is the scratch copy.
    One of the two is always the case. *)
Theorem addTransaction_all_or_none (db : DB)
    (orderedMessages oooMessages : list Msg) :
  let ooo_valid := λ msg : Msg,
    reported (validate_appendOOO validate_initial msg) = None in
  let ooo_invalid := λ msg : Msg,
    is_Some (reported (validate_appendOOO validate_initial msg)) in
  ((∃ err : Error,
      invalid_in_order validate_append (state db) orderedMessages err) ∨
   Exists ooo_invalid oooMessages →
   ∃ err : Error,
     addTransaction db orderedMessages oooMessages = (db, CbErr err)) ∧
  (∀ scratch : ValidationState,
     valid_in_order validate_append (state db) orderedMessages scratch →
     Forall ooo_valid oooMessages →
     let records := transaction_records orderedMessages oooMessages in
     addTransaction db orderedMessages oooMessages =
       (mkDB scratch (log db ++ map Some records) (fullIndex db),
        CbOk records) ∧
     length records = (length orderedMessages + length oooMessages)%nat) ∧
  ((∃ err : Error,
      invalid_in_order validate_append (state db) orderedMessages err) ∨
   Exists ooo_invalid oooMessages ∨
   (∃ scratch : ValidationState,
      valid_in_order validate_append (state db) orderedMessages scratch ∧
      Forall ooo_valid oooMessages)).
Proof.
  intros ooo_valid ooo_invalid. split; [|split].
  - intros Hfail. unfold Db.addTransaction.
    pose proof (validate_ordered_outcome orderedMessages (state db)) as Hord.
    destruct (validate_ordered (state db) orderedMessages) as [err|scratch].
    + by exists err.
    + destruct Hfail as [[err Hinv]|Hooo].
      * apply invalid_in_order_validate in Hinv.
        apply valid_in_order_validate in Hord. congruence.
      * destruct (validate_ooo_some_invalid _ Hooo) as [err ->].
        by exists err.
  - intros scratch Hord Hooo records. split.
    + unfold Db.addTransaction.
      rewrite (valid_in_order_validate _ _ _ Hord).
      by rewrite (proj1 (validate_ooo_all_valid _) Hooo).
    + unfold records, Db.transaction_records.
      by rewrite length_map, length_app.
  - pose proof (validate_ordered_outcome orderedMessages (state db)) as Hord.
    destruct (validate_ordered (state db) orderedMessages) as [err|scratch].
    + left. by exists err.
    + right. destruct (validate_ooo oooMessages) as [err|] eqn:Hooo.
      * left. apply validate_ooo_failure. rewrite Hooo. by eexists.
      * right. exists scratch. split; [done|].
        by apply validate_ooo_all_valid.
Qed.

End ValidationFacts.

(** ** The index stays consistent with the log *)

Lemma del_each_consistent (results : list LogRecord) (db : DB) :
  index_consistent db → index_consistent (fst (del_each db results)).
Proof.
  revert db. induction results as [|msg rest IH]; intros db Hcons; [done|].
  simpl. pose proof (del_consistent db (rec_key msg) Hcons) as Hdel.
  destruct (del db (rec_key msg)) as [db1 [err|[]]]; simpl in *; [done|].
  by apply IH.
Qed.

Lemma deleteFeed_consistent (db : DB) (feedId : string) :
  index_consistent db → index_consistent (fst (deleteFeed db feedId)).
Proof.
  intros Hcons. unfold deleteFeed, deleteFeed_results.
  pose proof (del_each_consistent (query_author (log db) feedId) db Hcons)
    as Heach.
  destruct (del_each db (query_author (log db) feedId)) as [db1 [err|]];
    simpl in *; [done|].
  destruct Heach as [Hbehind Hkeys]. by split.
Qed.

Section OperationFacts.

Variable hash : string → string.
Variable stringify : Msg → string.
Variable unbox : string → jsval.
Variable validate_initial : ValidationState.
Variable validate_append : ValidationState → Msg → Outcome.
Variable validate_appendOOO : ValidationState → Msg → Outcome.

Local Abbreviation apply :=
  (apply_op hash stringify unbox validate_initial validate_append
     validate_appendOOO).
Local Abbreviation run :=
  (run_ops hash stringify unbox validate_initial validate_append
     validate_appendOOO).

Lemma after_validation_consistent (db : DB) (msg : Msg) (outcome : Outcome) :
  index_consistent db →
  index_consistent (fst (after_validation hash stringify unbox db msg outcome)).
Proof.
  intros Hcons. unfold after_validation.
  destruct (reported outcome); [by destruct Hcons|].
  apply add_consistent. by destruct Hcons.
Qed.

Lemma apply_op_consistent (db : DB) (op : Op) :
  index_consistent db → index_consistent (apply db op).
Proof.
  intros Hcons. destruct op as [msg|key|feedId|msg|msg| |]; simpl.
  - by apply add_consistent.
  - by apply del_consistent.
  - by apply deleteFeed_consistent.
  - destruct (key_in (author msg) (feeds (state db))) eqn:Hknown.
    + rewrite validateAndAdd_known by done.
      by apply after_validation_consistent.
    + rewrite validateAndAdd_unknown by done.
      by apply after_validation_consistent.
  - unfold Db.validateAndAddOOO.
    destruct (validate_appendOOO validate_initial msg) as [st|ex st]; [|done].
    destruct (error st); [done | by apply add_consistent].
  - by apply index_tick_consistent.
  - by destruct Hcons.
Qed.

(** Every database reached from a consistent one is consistent. *)
Lemma run_ops_consistent (ops : list Op) (db : DB) :
  index_consistent db → index_consistent (run db ops).
Proof.
  revert db. induction ops as [|op ops IH]; intros db Hcons; [done|].
  simpl. apply IH. by apply apply_op_consistent.
Qed.

End OperationFacts.

(** ** The strict append of the test validator *)

Lemma append_throws_unmodified (st st' : ValidationState) (msg : Msg)
    (err : Error) :
  Fixture.append st msg = Throws err st' → st' = st.
Proof.
  unfold Fixture.append.
  destruct (feeds st !! author msg) as [fs|];
    repeat match goal with
           | |- context [if ?b then _ else _] => destruct b
           end; congruence.
Qed.

(** A sequence other than the latest plus one, the latest itself (a
    duplicate) and the latest plus two (a gap) among them, is a
    [SequenceGap] and leaves the state as it is. *)
Lemma append_sequence_gap (st : ValidationState) (msg : Msg) (fs : FeedState) :
  feeds st !! author msg = Some fs →
  sequence msg ≠ fs_sequence fs + 1 →
  Fixture.append st msg = Throws (ValidationError SequenceGap) st.
Proof.
  intros Hfeed Hseq. unfold Fixture.append. rewrite Hfeed.
  destruct (sequence msg =? fs_sequence fs + 1) eqn:Heq; [|done].
  apply Z.eqb_eq in Heq. contradiction.
Qed.

(** A wrong [previous] at the right sequence is a [PreviousMismatch]. *)
Lemma append_previous_mismatch (st : ValidationState) (msg : Msg)
    (fs : FeedState) :
  feeds st !! author msg = Some fs →
  sequence msg = fs_sequence fs + 1 →
  previous msg ≠ Some (fs_id fs) →
  Fixture.append st msg = Throws (ValidationError PreviousMismatch) st.
Proof.
  intros Hfeed Hseq Hprev. unfold Fixture.append. rewrite Hfeed, Hseq.
  rewrite Z.eqb_refl. simpl. by rewrite bool_decide_eq_false_2.
Qed.

(** * Further properties *)

(** ** Reading what was added and what was deleted *)

Lemma getDataFromKey_after_del (db : DB) (key : string) :
  getDataFromKey (fullIndex (fst (del db key))) (log (fst (del db key))) key
    = CbErr NotFound.
Proof.
  unfold del, keyToSeq, getDataFromKey.
  destruct (idx_keys (fullIndex db) !! key) as [seq|] eqn:Hkey; simpl.
  - unfold log_del. case_bool_decide as Hlt; simpl; rewrite Hkey.
    + by rewrite list_lookup_insert_eq.
    + by rewrite lookup_ge_None_2 by lia.
  - by rewrite Hkey.
Qed.

(** X5: after [del], whatever it called back with, [get] of the same key
    finds nothing. *)
Theorem get_after_del_not_found (db : DB) (key : string) :
  get (fst (del db key)) key = CbErr NotFound.
Proof. unfold get. by rewrite getDataFromKey_after_del. Qed.

(** X6: [del] of a key does not change what [get] reads for a key that the
    base index resolves differently (to another slot, or not at all). *)
Theorem get_other_after_del (db : DB) (key other : string) :
  idx_keys (fullIndex db) !! other ≠ idx_keys (fullIndex db) !! key →
  get (fst (del db key)) other = get db other.
Proof.
  intros Hne. unfold get, getDataFromKey. rewrite del_index.
  destruct (idx_keys (fullIndex db) !! other) as [n|] eqn:Hother; [|done].
  unfold del, keyToSeq, del_resolved.
  destruct (idx_keys (fullIndex db) !! key) as [seq|] eqn:Hkey; [|done].
  unfold log_del. case_bool_decide; simpl; [|done].
  rewrite list_lookup_insert_ne; [done|]. congruence.
Qed.

(** X7: a second [del] of the same key changes nothing more and calls back
    as the first did. *)
Theorem del_twice (db : DB) (key : string) :
  del (fst (del db key)) key = (fst (del db key), snd (del db key)).
Proof.
  unfold del at 1. rewrite del_index.
  unfold del, keyToSeq, del_resolved.
  destruct (idx_keys (fullIndex db) !! key) as [seq|] eqn:Hkey; [|done].
  destruct (decide (seq < length (log db))%nat) as [Hlt|Hge].
  - rewrite (log_del_in_range _ _ Hlt). cbn [fst snd with_log log].
    rewrite log_del_in_range by by rewrite length_insert.
    unfold with_log. simpl. rewrite list_insert_insert_eq. reflexivity.
  - unfold log_del. rewrite !(bool_decide_eq_false_2 _ Hge). done.
Qed.

Section ReadingFacts.

Variable hash : string → string.
Variable stringify : Msg → string.
Variable unbox : string → jsval.

Local Abbreviation getId := (Db.getId hash stringify).
Local Abbreviation add := (Db.add hash stringify unbox).
Local Abbreviation store_unencrypted := (Db.store_unencrypted unbox).
Local Abbreviation run := (run_events hash stringify unbox).

(** X1: a message that was not resolvable is, once [add] has appended it
    and the base index has caught up, what [get] reads under its identity,
    in the form it was stored in. *)
Theorem get_after_add (db : DB) (msg : Msg) :
  index_consistent db →
  is_err (getDataFromKey (fullIndex db) (log db) (getId msg)) = true →
  get (catch_up (fst (add db msg))) (getId msg)
    = CbOk (store_unencrypted msg).
Proof.
  intros [Hbehind _] Hnew.
  rewrite (add_appends hash stringify unbox db msg Hnew). cbn [fst].
  set (stored := mkRecord (getId msg) (store_unencrypted msg)).
  unfold get, getDataFromKey, catch_up. simpl.
  pose proof (index_steps_resolve_last (log db) stored (fullIndex db) Hbehind)
    as Hkey.
  change (rec_key stored) with (getId msg) in Hkey. rewrite Hkey.
  rewrite lookup_app_r by lia. by rewrite Nat.sub_diag.
Qed.

(** X2: right after [add] has appended a message whose identity the base
    index does not hold, a plain [get] finds nothing, and [getSync] does not
    answer yet: it registers its listener. *)
Theorem get_before_indexing (db : DB) (msg : Msg) :
  index_consistent db →
  idx_keys (fullIndex db) !! getId msg = None →
  let db1 := fst (add db msg) in
  length (log db1) = S (length (log db)) ∧
  get db1 (getId msg) = CbErr NotFound ∧
  getSync db1 (getId msg) = mkBarrier (Some (getId msg)) [].
Proof.
  intros [Hbehind _] Hkey db1.
  assert (is_err (getDataFromKey (fullIndex db) (log db) (getId msg)) = true)
    as Hnew by (unfold getDataFromKey; by rewrite Hkey).
  subst db1. rewrite (add_appends hash stringify unbox db msg Hnew).
  cbn [fst]. split; [|split].
  - simpl. rewrite length_app. simpl. lia.
  - unfold get, getDataFromKey. simpl. by rewrite Hkey.
  - unfold getSync, caught_up, log_since. simpl.
    rewrite bool_decide_eq_false_2; [done|]. rewrite length_app. simpl. lia.
Qed.

(** X8: a deletion is not remembered: [add] of a message after the [del] of
    its identity appends a record again. *)
Theorem add_after_del (db : DB) (msg : Msg) :
  let db1 := fst (del db (getId msg)) in
  let stored := mkRecord (getId msg) (store_unencrypted msg) in
  add db1 msg = (with_log (log db1 ++ [Some stored]) db1,
                 CbOk (Appended stored)).
Proof.
  intros db1 stored. apply add_appends. subst db1.
  by rewrite getDataFromKey_after_del.
Qed.

(** *** [getSync] for any identity *)

Lemma getSync_listener_waiting (db db' : DB) (id : string) :
  caught_up db = false →
  getSync_listener db' (getSync db id) = getSync db' id.
Proof.
  intros Hbehind. unfold getSync, getSync_listener. rewrite Hbehind. simpl.
  by destruct (caught_up db').
Qed.

Lemma run_index_progress_barrier (n : nat) (db : DB) (id : string) :
  (idx_seq (fullIndex db) + n = length (log db))%nat →
  snd (run (db, getSync db id) (repeat IndexProgress n))
    = mkBarrier None [get (index_ticks n db) id].
Proof.
  revert db. induction n as [|n IH]; intros db Hn.
  - simpl. unfold getSync, caught_up, log_since.
    rewrite bool_decide_eq_true_2 by lia. by destruct db.
  - change (repeat IndexProgress (S n))
      with (IndexProgress :: repeat IndexProgress n).
    change (run (db, getSync db id) (IndexProgress :: repeat IndexProgress n))
      with (run (index_tick db,
                 getSync_listener (index_tick db) (getSync db id))
              (repeat IndexProgress n)).
    rewrite getSync_listener_waiting.
    + rewrite IH; [done|]. simpl. rewrite index_step_seq_behind; lia.
    + unfold caught_up, log_since. apply bool_decide_eq_false_2. lia.
Qed.

Lemma index_ticks_caught_up (n : nat) (db : DB) :
  caught_up db = true → index_ticks n db = db.
Proof.
  intros Hup. apply bool_decide_eq_true_1 in Hup. unfold log_since in Hup.
  induction n as [|n IH]; [by destruct db|].
  unfold index_ticks in *. rewrite index_steps_succ.
  destruct db as [st l ix]. simpl in *.
  injection IH as IH. rewrite IH. rewrite index_step_caught_up; [done|lia].
Qed.

Lemma run_index_progress_delivered (n : nat) (db : DB) (rs : list (Cb Msg)) :
  snd (run (db, mkBarrier None rs) (repeat IndexProgress n))
    = mkBarrier None rs.
Proof.
  revert db. induction n as [|n IH]; intros db; [done|].
  change (repeat IndexProgress (S n))
    with (IndexProgress :: repeat IndexProgress n).
  change (run (db, mkBarrier None rs) (IndexProgress :: repeat IndexProgress n))
    with (run (index_tick db, mkBarrier None rs) (repeat IndexProgress n)).
  apply IH.
Qed.

(** X3: [getSync] answers for every identity, stored or not: once the base
    index has taken the steps it was behind, the callback has been called
    exactly once, with what [get] reads on the caught-up index, and further
    progress of the index calls it no more. *)
Theorem getSync_answers_once (db : DB) (id : string) (further : nat) :
  (idx_seq (fullIndex db) ≤ length (log db))%nat →
  snd (run (db, getSync db id)
         (repeat IndexProgress
            (length (log db) - idx_seq (fullIndex db) + further)))
    = mkBarrier None [get (catch_up db) id].
Proof.
  intros Hbehind.
  set (n := (length (log db) - idx_seq (fullIndex db))%nat).
  rewrite repeat_app. unfold run_events. rewrite fold_left_app.
  pose proof (run_index_progress_barrier n db id) as Hfirst.
  unfold run_events in Hfirst.
  destruct (fold_left _ (repeat IndexProgress n) _) as [db2 b2].
  simpl in Hfirst. rewrite Hfirst by (unfold n; lia).
  apply run_index_progress_delivered.
Qed.

End ReadingFacts.

(** ** The log keeps its slots *)

Lemma slots_kept_refl (l : Log) : slots_kept l l.
Proof. intros n slot Hn. by left. Qed.

Lemma slots_kept_trans (l1 l2 l3 : Log) :
  slots_kept l1 l2 → slots_kept l2 l3 → slots_kept l1 l3.
Proof.
  intros H12 H23 n slot Hn.
  destruct (H12 n slot Hn) as [H2|H2].
  - by apply H23.
  - right. by destruct (H23 n None H2).
Qed.

Lemma slots_kept_app (l more : Log) : slots_kept l (l ++ more).
Proof.
  intros n slot Hn. left. rewrite lookup_app_l; [done|].
  by eapply lookup_lt_Some.
Qed.

Lemma slots_kept_tombstone (l : Log) (seq : nat) :
  slots_kept l (<[seq := None]> l).
Proof.
  intros n slot Hn. destruct (decide (n = seq)) as [->|Hne].
  - right. apply list_lookup_insert_eq. by eapply lookup_lt_Some.
  - left. by rewrite list_lookup_insert_ne.
Qed.

Lemma slots_kept_length (l l' : Log) :
  slots_kept l l' → (length l ≤ length l')%nat.
Proof.
  intros Hkept. destruct (decide (length l ≤ length l')%nat) as [|Hgt]; [done|].
  destruct (lookup_lt_is_Some_2 l (length l')) as [slot Hslot]; [lia|].
  destruct (Hkept _ _ Hslot) as [H|H]; apply lookup_lt_Some in H; lia.
Qed.

Lemma del_slots_kept (db : DB) (key : string) :
  slots_kept (log db) (log (fst (del db key))).
Proof.
  unfold del, del_resolved.
  destruct (keyToSeq _ _) as [err|[seq|]]; try apply slots_kept_refl.
  unfold log_del. case_bool_decide; simpl.
  - apply slots_kept_tombstone.
  - apply slots_kept_refl.
Qed.

Lemma del_each_slots_kept (results : list LogRecord) (db : DB) :
  slots_kept (log db) (log (fst (del_each db results))).
Proof.
  revert db. induction results as [|msg rest IH]; intros db.
  - apply slots_kept_refl.
  - simpl. pose proof (del_slots_kept db (rec_key msg)) as Hdel.
    destruct (del db (rec_key msg)) as [db1 [err|[]]]; simpl in *; [done|].
    eapply slots_kept_trans; [exact Hdel | apply IH].
Qed.

Lemma deleteFeed_log (db : DB) (feedId : string) :
  log (fst (deleteFeed db feedId))
    = log (fst (del_each db (query_author (log db) feedId))).
Proof.
  unfold deleteFeed, deleteFeed_results.
  by destruct (del_each db _) as [db1 [err|]].
Qed.

Section LogFacts.

Variable hash : string → string.
Variable stringify : Msg → string.
Variable unbox : string → jsval.
Variable validate_initial : ValidationState.
Variable validate_append : ValidationState → Msg → Outcome.
Variable validate_appendOOO : ValidationState → Msg → Outcome.

Local Abbreviation apply :=
  (apply_op hash stringify unbox validate_initial validate_append
     validate_appendOOO).
Local Abbreviation run :=
  (run_ops hash stringify unbox validate_initial validate_append
     validate_appendOOO).

Lemma add_slots_kept (db : DB) (msg : Msg) :
  slots_kept (log db) (log (fst (Db.add hash stringify unbox db msg))).
Proof.
  destruct (add_log_grows hash stringify unbox db msg) as [more ->].
  apply slots_kept_app.
Qed.

Lemma after_validation_slots_kept (db : DB) (msg : Msg) (outcome : Outcome) :
  slots_kept (log db)
    (log (fst (after_validation hash stringify unbox db msg outcome))).
Proof.
  unfold after_validation. destruct (reported outcome).
  - apply slots_kept_refl.
  - apply (add_slots_kept (with_state (state_after outcome) db)).
Qed.

Lemma apply_op_slots_kept (db : DB) (op : Op) :
  slots_kept (log db) (log (apply db op)).
Proof.
  destruct op as [msg|key|feedId|msg|msg| |]; simpl.
  - apply add_slots_kept.
  - apply del_slots_kept.
  - rewrite deleteFeed_log. apply del_each_slots_kept.
  - destruct (key_in (author msg) (feeds (state db))) eqn:Hknown.
    + rewrite validateAndAdd_known by done.
      apply after_validation_slots_kept.
    + rewrite validateAndAdd_unknown by done.
      apply after_validation_slots_kept.
  - unfold Db.validateAndAddOOO.
    destruct (validate_appendOOO validate_initial msg) as [st|ex st];
      [|apply slots_kept_refl].
    destruct (error st); [apply slots_kept_refl | apply add_slots_kept].
  - apply slots_kept_refl.
  - apply slots_kept_refl.
Qed.

(** X4: whatever sequence of [add], [del], [deleteFeed], [validateAndAdd],
    [validateAndAddOOO], index progress and restarts runs on a database,
    the log loses no slot: every slot holds afterwards what it held or a
    tombstone, a tombstone stays a tombstone, and the last sequence of the
    log does not decrease. *)
Theorem log_keeps_its_slots (ops : list Op) (db : DB) :
  slots_kept (log db) (log (run db ops)) ∧
  (∀ n : nat, log db !! n = Some None → log (run db ops) !! n = Some None) ∧
  (log_since (log db) ≤ log_since (log (run db ops)))%nat.
Proof.
  assert (slots_kept (log db) (log (run db ops))) as Hkept.
  { revert db. induction ops as [|op ops IH]; intros db.
    - apply slots_kept_refl.
    - simpl. eapply slots_kept_trans; [apply apply_op_slots_kept | apply IH]. }
  split; [done|]. split.
  - intros n Hn. by destruct (Hkept n None Hn).
  - by apply slots_kept_length.
Qed.

End LogFacts.

(** ** The index resolves a key to a record of that key *)

Lemma index_sound_kept (db db' : DB) :
  index_consistent db → index_sound db →
  idx_keys (fullIndex db') = idx_keys (fullIndex db) →
  slots_kept (log db) (log db') →
  index_sound db'.
Proof.
  intros [Hle Hkeys] Hsound Hsame Hkept k n r Hk Hslot.
  rewrite Hsame in Hk. specialize (Hkeys k n Hk).
  assert (n < length (log db))%nat as Hlt by lia.
  destruct (lookup_lt_is_Some_2 (log db) n Hlt) as [slot Hold].
  destruct (Hkept n slot Hold) as [Hnew|Hnew]; [|congruence].
  apply (Hsound k n r Hk). congruence.
Qed.

Lemma deleteFeed_keys (db : DB) (feedId : string) :
  idx_keys (fullIndex (fst (deleteFeed db feedId))) = idx_keys (fullIndex db).
Proof.
  unfold deleteFeed, deleteFeed_results.
  destruct (del_each_state (query_author (log db) feedId) db) as [_ Hix].
  destruct (del_each db (query_author (log db) feedId)) as [db1 [err|]];
    simpl in *; by rewrite Hix.
Qed.

Section SoundnessFacts.

Variable hash : string → string.
Variable stringify : Msg → string.
Variable unbox : string → jsval.
Variable validate_initial : ValidationState.
Variable validate_append : ValidationState → Msg → Outcome.
Variable validate_appendOOO : ValidationState → Msg → Outcome.

Local Abbreviation apply :=
  (apply_op hash stringify unbox validate_initial validate_append
     validate_appendOOO).
Local Abbreviation run :=
  (run_ops hash stringify unbox validate_initial validate_append
     validate_appendOOO).

Lemma apply_op_keys (db : DB) (op : Op) :
  op ≠ OpIndexProgress →
  idx_keys (fullIndex (apply db op)) = idx_keys (fullIndex db).
Proof.
  intros Hop. destruct op as [msg|key|feedId|msg|msg| |]; simpl; try done.
  - by rewrite add_index.
  - by rewrite del_index.
  - apply deleteFeed_keys.
  - destruct (key_in (author msg) (feeds (state db))) eqn:Hknown.
    + rewrite validateAndAdd_known by done. unfold after_validation.
      destruct (reported _); [done | by rewrite add_index].
    + rewrite validateAndAdd_unknown by done. unfold after_validation.
      destruct (reported _); [done | by rewrite add_index].
  - unfold Db.validateAndAddOOO.
    destruct (validate_appendOOO validate_initial msg) as [st|ex st]; [|done].
    destruct (error st); [done | by rewrite add_index].
Qed.

Lemma apply_op_sound (db : DB) (op : Op) :
  index_consistent db → index_sound db → index_sound (apply db op).
Proof.
  intros Hcons Hsound.
  assert (op = OpIndexProgress ∨ op ≠ OpIndexProgress) as [->|Hop]
    by (destruct op; (by left) || by right).
  - by apply index_tick_sound.
  - apply (index_sound_kept db); [done | done | by apply apply_op_keys |].
    apply apply_op_slots_kept.
Qed.

(** Every database reached from a consistent one whose index resolves keys
    to records of those keys is such a database. *)
Lemma run_ops_sound (ops : list Op) (db : DB) :
  index_consistent db → index_sound db →
  index_consistent (run db ops) ∧ index_sound (run db ops).
Proof.
  revert db. induction ops as [|op ops IH]; intros db Hcons Hsound; [done|].
  simpl. apply IH.
  - by apply apply_op_consistent.
  - by apply apply_op_sound.
Qed.

End SoundnessFacts.

(** ** What [deleteFeed] deletes *)

Lemma elem_of_query_author (l : Log) (feedId : string) (r : LogRecord) :
  r ∈ query_author l feedId ↔
  ∃ n : nat, l !! n = Some (Some r) ∧ author (rec_value r) = feedId.
Proof.
  unfold query_author. rewrite list_elem_of_omap. split.
  - intros ([r'|] & Hin & Hf); [|done].
    destruct (decide (author (rec_value r') = feedId)) as [Heq|]; [|done].
    injection Hf as ->. apply list_elem_of_lookup_1 in Hin as [n Hn].
    by exists n.
  - intros (n & Hn & Hauthor). exists (Some r). split.
    + by eapply list_elem_of_lookup_2.
    + by rewrite decide_True.
Qed.

Lemma del_succeeds_iff (db : DB) (key : string) :
  index_consistent db →
  snd (del db key) = CbOk tt ↔ is_Some (idx_keys (fullIndex db) !! key).
Proof.
  intros [Hbehind Hkeys]. unfold del, keyToSeq, del_resolved.
  destruct (idx_keys (fullIndex db) !! key) as [seq|] eqn:Hkey.
  - rewrite log_del_in_range by (specialize (Hkeys _ _ Hkey); lia).
    split; [by eexists | done].
  - split; [done | by intros [? ?]].
Qed.

Lemma del_each_succeeds_iff (results : list LogRecord) (db : DB) :
  index_consistent db →
  snd (del_each db results) = None ↔
  Forall (λ r, is_Some (idx_keys (fullIndex db) !! rec_key r)) results.
Proof.
  revert db. induction results as [|msg rest IH]; intros db Hcons.
  - split; [constructor | done].
  - simpl. pose proof (del_succeeds_iff db (rec_key msg) Hcons) as Hdel.
    pose proof (del_consistent db (rec_key msg) Hcons) as Hcons1.
    pose proof (del_index db (rec_key msg)) as Hix.
    destruct (del db (rec_key msg)) as [db1 [err|[]]]; simpl in *.
    + split; [done|]. intros Hall. inversion Hall as [|? ? Hhead _].
      by apply Hdel in Hhead.
    + rewrite (IH db1 Hcons1), Hix. split.
      * intros Hall. constructor; [by apply Hdel | done].
      * intros Hall. by inversion Hall.
Qed.

Lemma deleteFeed_result (db : DB) (feedId : string) :
  snd (deleteFeed db feedId) = CbOk tt ↔
  snd (del_each db (query_author (log db) feedId)) = None.
Proof.
  unfold deleteFeed, deleteFeed_results.
  by destruct (del_each db _) as [db1 [err|]].
Qed.

Lemma deleteFeed_succeeds_iff_indexed_aux (db : DB) (feedId : string) :
  index_consistent db →
  (∀ r : LogRecord,
     r ∈ query_author (log db) feedId →
     is_Some (idx_keys (fullIndex db) !! rec_key r)) →
  snd (deleteFeed db feedId) = CbOk tt.
Proof.
  intros Hcons Hall. apply deleteFeed_result.
  apply (del_each_succeeds_iff _ _ Hcons). by apply Forall_forall.
Qed.

(** X12: on a database whose index is consistent with the log,
    [deleteFeed] succeeds exactly when the base index resolves the key of
    every record of the feed: it fails only for records the index has not
    incorporated. *)
Theorem deleteFeed_succeeds_iff_indexed (db : DB) (feedId : string) :
  index_consistent db →
  snd (deleteFeed db feedId) = CbOk tt ↔
  ∀ r : LogRecord,
    r ∈ query_author (log db) feedId →
    is_Some (idx_keys (fullIndex db) !! rec_key r).
Proof.
  intros Hcons. rewrite deleteFeed_result.
  rewrite (del_each_succeeds_iff _ _ Hcons). apply Forall_forall.
Qed.

Lemma del_each_tombstones (results : list LogRecord) (db : DB) :
  snd (del_each db results) = None →
  ∀ r : LogRecord, r ∈ results →
    ∃ seq : nat,
      idx_keys (fullIndex db) !! rec_key r = Some seq ∧
      log (fst (del_each db results)) !! seq = Some None.
Proof.
  revert db. induction results as [|msg rest IH]; intros db Hok r Hin.
  - by apply elem_of_nil in Hin.
  - simpl in *. pose proof (del_index db (rec_key msg)) as Hix.
    assert (∀ seq, idx_keys (fullIndex db) !! rec_key msg = Some seq →
              snd (del db (rec_key msg)) = CbOk tt →
              log (fst (del db (rec_key msg))) !! seq = Some None) as Hslot.
    { intros seq Hkey. unfold del, keyToSeq, del_resolved. rewrite Hkey.
      unfold log_del. case_bool_decide; simpl; [|done].
      intros _. by apply list_lookup_insert_eq. }
    assert (snd (del db (rec_key msg)) = CbOk tt →
              is_Some (idx_keys (fullIndex db) !! rec_key msg)) as Hres.
    { unfold del, keyToSeq, del_resolved.
      destruct (idx_keys (fullIndex db) !! rec_key msg); [by eexists | done]. }
    destruct (del db (rec_key msg)) as [db1 [err|[]]] eqn:Hdel; simpl in *;
      [done|].
    apply elem_of_cons in Hin as [->|Hin].
    + destruct (Hres eq_refl) as [seq Hkey]. exists seq. split; [done|].
      pose proof (del_each_slots_kept rest db1) as Hkept.
      by destruct (Hkept seq None (Hslot seq Hkey eq_refl)).
    + rewrite <- Hix. by apply IH.
Qed.

(** X9: after a [deleteFeed] that succeeded, [get] finds none of the
    messages of the feed that the log held. *)
Theorem get_after_deleteFeed (db : DB) (feedId : string) (r : LogRecord) :
  snd (deleteFeed db feedId) = CbOk tt →
  r ∈ query_author (log db) feedId →
  get (fst (deleteFeed db feedId)) (rec_key r) = CbErr NotFound.
Proof.
  intros Hok Hin. apply deleteFeed_result in Hok.
  destruct (del_each_tombstones _ db Hok r Hin) as (seq & Hkey & Hslot).
  unfold get, getDataFromKey. rewrite deleteFeed_log.
  unfold deleteFeed, deleteFeed_results.
  destruct (del_each_state (query_author (log db) feedId) db) as [_ Hix].
  destruct (del_each db _) as [db1 [err|]]; simpl in *; [done|].
  by rewrite Hix, Hkey, Hslot.
Qed.

(** X10: [deleteFeed], whether it succeeds or fails, leaves the feed state
    and the latest entry of every other author as they were, and does not
    touch the watermark of the base index or the keys it resolves. *)
Theorem deleteFeed_other_feeds (db : DB) (feedId other : string) :
  other ≠ feedId →
  feeds (state (fst (deleteFeed db feedId))) !! other
    = feeds (state db) !! other ∧
  idx_latest (fullIndex (fst (deleteFeed db feedId))) !! other
    = idx_latest (fullIndex db) !! other ∧
  idx_keys (fullIndex (fst (deleteFeed db feedId))) = idx_keys (fullIndex db) ∧
  idx_seq (fullIndex (fst (deleteFeed db feedId))) = idx_seq (fullIndex db).
Proof.
  intros Hne. unfold deleteFeed, deleteFeed_results.
  destruct (del_each_state (query_author (log db) feedId) db) as [Hst Hix].
  destruct (del_each db _) as [db1 [err|]]; simpl in *.
  - by rewrite Hst, Hix.
  - rewrite Hst, Hix. by rewrite !lookup_delete_ne.
Qed.

Lemma del_lookup_cases (db : DB) (key : string) (n : nat) :
  (log (fst (del db key)) !! n = log db !! n) ∨
  (idx_keys (fullIndex db) !! key = Some n ∧
   log (fst (del db key)) !! n = Some None).
Proof.
  unfold del, keyToSeq, del_resolved.
  destruct (idx_keys (fullIndex db) !! key) as [seq|] eqn:Hkey; [|by left].
  unfold log_del. case_bool_decide as Hlt; simpl; [|by left].
  destruct (decide (n = seq)) as [->|Hne].
  - right. split; [done|]. by apply list_lookup_insert_eq.
  - left. by apply list_lookup_insert_ne.
Qed.

Lemma del_each_lookup_cases (results : list LogRecord) (db : DB) (n : nat) :
  (log (fst (del_each db results)) !! n = log db !! n) ∨
  (∃ r : LogRecord,
     r ∈ results ∧ idx_keys (fullIndex db) !! rec_key r = Some n ∧
     log (fst (del_each db results)) !! n = Some None).
Proof.
  revert db. induction results as [|msg rest IH]; intros db; [by left|].
  simpl. pose proof (del_lookup_cases db (rec_key msg) n) as Hdel.
  pose proof (del_index db (rec_key msg)) as Hix.
  destruct (del db (rec_key msg)) as [db1 [err|[]]] eqn:Heq; simpl in *.
  - destruct Hdel as [Hsame|[Hkey Hnone]]; [by left|].
    right. exists msg. split; [apply elem_of_cons; by left | done].
  - destruct (IH db1) as [Hsame|(r & Hin & Hkey & Hnone)].
    + destruct Hdel as [Hsame'|[Hkey Hnone]].
      * left. by rewrite Hsame.
      * right. exists msg. split; [apply elem_of_cons; by left|].
        split; [done|]. by rewrite Hsame.
    + right. exists r. split; [apply elem_of_cons; by right|].
      by rewrite <- Hix.
Qed.

(** X11: when the base index resolves the key of every live record of the
    log to the slot of that record (it has caught up and no key occurs
    twice), [deleteFeed] succeeds, no record of the feed is left in the log
    and the records of every other author are in their slots as before. *)
Theorem deleteFeed_deletes_exactly_the_feed (db : DB) (feedId : string) :
  index_consistent db →
  index_exact db →
  snd (deleteFeed db feedId) = CbOk tt ∧
  query_author (log (fst (deleteFeed db feedId))) feedId = [] ∧
  ∀ (n : nat) (r : LogRecord),
    log db !! n = Some (Some r) →
    author (rec_value r) ≠ feedId →
    log (fst (deleteFeed db feedId)) !! n = Some (Some r).
Proof.
  intros Hcons Hexact.
  assert (snd (deleteFeed db feedId) = CbOk tt) as Hok.
  { apply (deleteFeed_succeeds_iff_indexed_aux db feedId Hcons).
    intros r Hin. apply elem_of_query_author in Hin as (n & Hn & _).
    rewrite (Hexact n r Hn). by eexists. }
  split; [done|]. rewrite deleteFeed_log.
  set (results := query_author (log db) feedId) in *.
  split.
  - apply elem_of_nil_inv. intros r Hin.
    apply elem_of_query_author in Hin as (n & Hn & Hauthor).
    destruct (del_each_lookup_cases results db n) as [Hsame|(r0 & _ & _ & Hnone)];
      [|congruence].
    rewrite Hsame in Hn.
    assert (r ∈ results) as Hres
      by (apply elem_of_query_author; by exists n).
    apply deleteFeed_result in Hok.
    destruct (del_each_tombstones results db Hok r Hres) as (seq & Hkey & Hslot).
    rewrite (Hexact n r Hn) in Hkey. injection Hkey as <-.
    rewrite Hsame in Hslot. congruence.
  - intros n r Hn Hauthor.
    destruct (del_each_lookup_cases results db n)
      as [Hsame|(r0 & Hin & Hkey & _)]; [by rewrite Hsame|].
    apply elem_of_query_author in Hin as (n0 & Hn0 & Hauthor0).
    rewrite (Hexact n0 r0 Hn0) in Hkey. injection Hkey as ->.
    congruence.
Qed.

(** ** Start-up, validation and publishing *)

Section IngestionFacts.

Variable hash : string → string.
Variable stringify : Msg → string.
Variable unbox : string → jsval.
Variable validate_initial : ValidationState.
Variable validate_append : ValidationState → Msg → Outcome.
Variable validate_appendOOO : ValidationState → Msg → Outcome.
Variable validate_appendNew : ValidationState → jsval → Z → Outcome.

Local Abbreviation getId := (Db.getId hash stringify).
Local Abbreviation add := (Db.add hash stringify unbox).
Local Abbreviation store_unencrypted := (Db.store_unencrypted unbox).
Local Abbreviation add_argument := (Db.add_argument hash stringify unbox).
Local Abbreviation validateAndAdd :=
  (Db.validateAndAdd hash stringify unbox validate_append validate_appendOOO).
Local Abbreviation publish :=
  (Db.publish hash stringify unbox validate_appendNew).
Local Abbreviation init := (Db.init validate_initial).

(** X13: the database [init] builds over a persisted log and base index
    holds that log and that index, and its KNOWN authors are those with a
    latest entry in the index, each at the identity, timestamp and sequence
    of its entry and with an empty queue, and those of [validate.initial()],
    an entry of the index taking precedence. *)
Theorem init_known_authors (l : Log) (ix : BaseIndex) :
  log (init l ix) = l ∧
  fullIndex (init l ix) = ix ∧
  (∀ feedId : string,
     feeds (state (init l ix)) !! feedId =
       match getAllLatest ix !! feedId with
       | Some latest =>
           Some (mkFeedState (latest_id latest) (latest_timestamp latest)
                             (latest_sequence latest) [])
       | None => feeds validate_initial !! feedId
       end) ∧
  dom (feeds (state (init l ix)))
    = dom (getAllLatest ix) ∪ dom (feeds validate_initial).
Proof.
  split; [done|]. split; [done|]. split.
  - intros feedId. unfold Db.init, restore. simpl.
    destruct (getAllLatest ix !! feedId) as [latest|] eqn:Hlatest.
    + apply lookup_union_Some_l. by rewrite lookup_fmap, Hlatest.
    + rewrite lookup_union_r; [done|]. by rewrite lookup_fmap, Hlatest.
  - unfold Db.init, restore. simpl. by rewrite dom_union_L, dom_fmap_L.
Qed.

(** X14: when the validator [validateAndAdd] routes to reports an error,
    by exception or in the error slot, the callback gets that error and
    [add] is not called: the log and the base index are as before, and the
    shared state is the state that validator left.  When it reports none,
    the message goes to [add] on the log and index as they are, and the
    callback gets what [add] hands back, an error of [add] included.  In
    every case the base index is untouched and the log is at most one
    record longer. *)
Theorem validateAndAdd_rejected_writes_nothing (db : DB) (msg : Msg) :
  let outcome :=
    if key_in (author msg) (feeds (state db))
    then validate_append (state db) msg
    else validate_appendOOO (state db) msg in
  (∀ err : Error,
     reported outcome = Some err →
     validateAndAdd db msg
       = (mkDB (state_after outcome) (log db) (fullIndex db), CbErr err)) ∧
  (reported outcome = None →
     snd (validateAndAdd db msg) = snd (add db msg) ∧
     log (fst (validateAndAdd db msg)) = log (fst (add db msg))) ∧
  fullIndex (fst (validateAndAdd db msg)) = fullIndex db ∧
  (length (log (fst (validateAndAdd db msg))) ≤ S (length (log db)))%nat.
Proof.
  intros outcome.
  assert (validateAndAdd db msg
          = after_validation hash stringify unbox db msg outcome) as ->.
  { unfold outcome.
    destruct (key_in (author msg) (feeds (state db))) eqn:Hknown.
    - by apply validateAndAdd_known.
    - by apply validateAndAdd_unknown. }
  unfold after_validation.
  destruct (reported outcome) as [err|] eqn:Hrep.
  - split; [by intros ? [= <-]|]. split; [done|].
    split; [done|]. simpl. lia.
  - rewrite (add_with_state hash stringify unbox). cbn [fst snd].
    split; [done|]. split; [done|].
    split; [by rewrite <- (add_index hash stringify unbox db msg)|].
    change (log (with_state (state_after outcome) (fst (add db msg))))
      with (log (fst (add db msg))).
    unfold Db.add. destruct (getDataFromKey _ _ _); simpl; [|lia].
    rewrite length_app. simpl. lia.
Qed.

(** X15: [publish] lets an exception escape, without calling its callback,
    exactly when the validator throws or leaves the queue empty, and then
    neither the log nor the base index has changed.  Otherwise the callback
    is called with what [add] hands back for the value of the first queued
    entry, the log and the base index are as [add] leaves them, and the
    shared state is the one the validator returned, with that value as
    [add] left it. *)
Theorem publish_raises_without_writing (db : DB) (msg_content : jsval)
    (now : Z) :
  let staged :=
    validate_appendNew
      (mkVState (feeds (state db)) (error (state db)) []) msg_content now in
  match snd (publish db msg_content now) with
  | Raised ex =>
      ((∃ st, staged = Throws ex st) ∨
       (∃ st, staged = Returns st ∧ queue st = [] ∧
              ex = JsError "TypeError")) ∧
      state (fst (publish db msg_content now)) = state_after staged ∧
      log (fst (publish db msg_content now)) = log db ∧
      fullIndex (fst (publish db msg_content now)) = fullIndex db
  | CalledBack r =>
      ∃ (st : ValidationState) (kvt : LogRecord) (rest : list LogRecord),
        staged = Returns st ∧ queue st = kvt :: rest ∧
        r = snd (add (with_state st db) (rec_value kvt)) ∧
        log (fst (publish db msg_content now))
          = log (fst (add (with_state st db) (rec_value kvt))) ∧
        fullIndex (fst (publish db msg_content now)) = fullIndex db ∧
        state (fst (publish db msg_content now))
          = mkVState (feeds st) (error st)
              (mkRecord (rec_key kvt)
                 (add_argument (with_state st db) (rec_value kvt)) :: rest)
  end.
Proof.
  intros staged. unfold Db.publish. fold staged.
  destruct staged as [st|ex st].
  - destruct (queue st) as [|kvt rest] eqn:Hqueue.
    + cbn [fst snd]. split; [right; by exists st | done].
    + pose proof (add_index hash stringify unbox (with_state st db)
                    (rec_value kvt)) as Hindex.
      destruct (add (with_state st db) (rec_value kvt)) as [db1 r] eqn:Hadd.
      cbn [fst snd] in *. exists st, kvt, rest. by rewrite Hadd.
  - cbn [fst snd]. split; [left; by exists st | done].
Qed.

(** X16: when the validator stages a message that the base index does not
    resolve yet, [publish] appends it under its identity, in the form [add]
    stores, whatever the error slot of the state says.  The shared state is
    the one the validator returned, except that the value of its first
    queued entry is the message in that stored form, decrypted when it was
    boxed for us; and once the base index has caught up [get] reads the
    message. *)
Theorem publish_then_get (db : DB) (msg_content : jsval) (now : Z)
    (st : ValidationState) (kvt : LogRecord) (rest : list LogRecord) :
  index_consistent db →
  validate_appendNew
    (mkVState (feeds (state db)) (error (state db)) []) msg_content now
    = Returns st →
  queue st = kvt :: rest →
  is_err (getDataFromKey (fullIndex db) (log db) (getId (rec_value kvt)))
    = true →
  let stored := mkRecord (getId (rec_value kvt))
                         (store_unencrypted (rec_value kvt)) in
  let left :=
    mkVState (feeds st) (error st)
      (mkRecord (rec_key kvt) (store_unencrypted (rec_value kvt)) :: rest) in
  publish db msg_content now
    = (mkDB left (log db ++ [Some stored]) (fullIndex db),
       CalledBack (CbOk (Appended stored))) ∧
  get (catch_up (fst (publish db msg_content now))) (getId (rec_value kvt))
    = CbOk (store_unencrypted (rec_value kvt)).
Proof.
  intros [Hbehind _] Hstaged Hqueue Hnew stored left.
  assert (publish db msg_content now
          = (mkDB left (log db ++ [Some stored]) (fullIndex db),
             CalledBack (CbOk (Appended stored)))) as Hpub.
  { unfold Db.publish, Db.add_argument. rewrite Hstaged, Hqueue. cbv zeta.
    rewrite (add_appends hash stringify unbox (with_state st db)
               (rec_value kvt) Hnew).
    change (fullIndex (with_state st db)) with (fullIndex db).
    change (log (with_state st db)) with (log db).
    by destruct (getDataFromKey (fullIndex db) (log db)
                   (Db.getId hash stringify (rec_value kvt))). }
  split; [done|]. rewrite Hpub. cbn [fst].
  unfold get, getDataFromKey, catch_up. simpl.
  pose proof (index_steps_resolve_last (log db) stored (fullIndex db) Hbehind)
    as Hkey.
  change (rec_key stored) with (getId (rec_value kvt)) in Hkey. rewrite Hkey.
  rewrite lookup_app_r by lia. by rewrite Nat.sub_diag.
Qed.

End IngestionFacts.

(** ** [getStatus] *)

Lemma count_following_fold (partialState : gmap string jsval)
    (relations : list string) (synced total : nat) :
  fold_left (count_following partialState) relations (synced, total)
    = ((synced + length (List.filter (marked partialState "full") relations))%nat,
       (total + length relations)%nat).
Proof.
  revert synced total.
  induction relations as [|relation rest IH]; intros synced total; simpl.
  - apply pair_equal_spec; split; lia.
  - rewrite IH. destruct (marked partialState "full" relation); simpl;
      apply pair_equal_spec; split; lia.
Qed.

Lemma count_extended_fold (partialState : gmap string jsval)
    (relations : list string) (profiles contacts messages total : nat) :
  fold_left (count_extended partialState) relations
    (profiles, contacts, messages, total)
    = ((profiles
        + length (List.filter (marked partialState "syncedProfile") relations))%nat,
       (contacts
        + length (List.filter (marked partialState "syncedContacts") relations))%nat,
       (messages
        + length (List.filter (marked partialState "syncedMessages") relations))%nat,
       (total + length relations)%nat).
Proof.
  revert profiles contacts messages total.
  induction relations as [|relation rest IH];
    intros profiles contacts messages total; simpl.
  - repeat (apply pair_equal_spec; split); lia.
  - rewrite IH.
    destruct (marked partialState "syncedProfile" relation),
             (marked partialState "syncedContacts" relation),
             (marked partialState "syncedMessages" relation); simpl;
      repeat (apply pair_equal_spec; split); lia.
Qed.

(** X17: the totals [getStatus] reports are the numbers of relations of the
    graph, each occurrence counted, and each synced count is the number of
    those relations whose partial state carries the marker, so that no
    synced count exceeds its total. *)
Theorem getStatus_counts (db : DB) (partialState : gmap string jsval)
    (graph : Graph) :
  let counts := status_partial (getStatus db partialState graph) in
  let marked_in := λ (flag : string) (relations : list string),
    length (List.filter (marked partialState flag) relations) in
  totalFull counts = length (following graph) ∧
  fullSynced counts = marked_in "full" (following graph) ∧
  totalPartial counts = length (extended graph) ∧
  profilesSynced counts = marked_in "syncedProfile" (extended graph) ∧
  contactsSynced counts = marked_in "syncedContacts" (extended graph) ∧
  messagesSynced counts = marked_in "syncedMessages" (extended graph) ∧
  (fullSynced counts ≤ totalFull counts)%nat ∧
  (profilesSynced counts ≤ totalPartial counts)%nat ∧
  (contactsSynced counts ≤ totalPartial counts)%nat ∧
  (messagesSynced counts ≤ totalPartial counts)%nat.
Proof.
  intros counts marked_in. subst counts. unfold getStatus.
  rewrite count_following_fold, count_extended_fold. simpl.
  unfold marked_in.
  repeat split; try done; apply List.filter_length_le.
Qed.

(** X18: a relation that has no entry in the partial state, or whose entry
    lacks a marker, adds to the total and to no synced count: with an empty
    partial state every synced count is zero. *)
Theorem getStatus_unmarked (db : DB) (partialState : gmap string jsval)
    (graph : Graph) :
  (∀ relation : string, relation ∈ following graph →
     partialState !! relation = None) →
  (∀ relation : string, relation ∈ extended graph →
     partialState !! relation = None) →
  status_partial (getStatus db partialState graph)
    = mkPartialStatus (length (extended graph)) 0 0 0
                      (length (following graph)) 0.
Proof.
  intros Hfollowing Hextended.
  assert (∀ (flag : string) (relations : list string),
            (∀ relation, relation ∈ relations →
               partialState !! relation = None) →
            List.filter (marked partialState flag) relations = []) as Hnone.
  { intros flag relations Hall.
    induction relations as [|relation rest IH]; [done|]. simpl.
    unfold marked at 1. rewrite Hall by (apply elem_of_cons; by left).
    apply IH. intros r Hr. apply Hall. apply elem_of_cons. by right. }
  unfold getStatus. rewrite count_following_fold, count_extended_fold.
  rewrite !Hnone by done. done.
Qed.

(** ** What [handleRecord] stages *)

Lemma is_link_inv (link : jsval) :
  is_link link = true →
  ∃ (c : ascii) (rest : string),
    link = JStr (String c rest) ∧ (c = "@"%char ∨ c = "%"%char).
Proof.
  unfold is_link. destruct link as [| | | |s| |]; simpl;
    rewrite ?andb_false_r; try discriminate.
  destruct s as [|c rest]; simpl; [discriminate|].
  intros Hc. exists c, rest. split; [done|].
  apply orb_prop in Hc as [Hc|Hc]; apply Ascii.eqb_eq in Hc; auto.
Qed.

Lemma push_mentions_staged (shortKey : jsval) (seq : Z)
    (mentionsData : list jsval) (staged : list BatchOp) :
  ∃ more : list BatchOp,
    fst (push_mentions shortKey seq mentionsData staged) = staged ++ more ∧
    (length more ≤ length mentionsData)%nat ∧
    Forall (λ op, ∃ link, is_link link = true ∧
                          op = mention_op shortKey seq link) more.
Proof.
  revert staged. induction mentionsData as [|mention rest IH]; intros staged.
  - exists []. simpl. by rewrite app_nil_r.
  - simpl. destruct (prop mention "link") as [link|].
    + destruct (is_link link) eqn:Hlink.
      * destruct (IH (staged ++ [mention_op shortKey seq link]))
          as (more & Heq & Hlen & Hall).
        exists (mention_op shortKey seq link :: more).
        split; [unfold mention_op in Heq; by rewrite Heq, <- app_assoc|].
        split; [simpl; lia|].
        constructor; [by exists link | done].
      * destruct (IH staged) as (more & Heq & Hlen & Hall).
        exists more. split; [done|]. split; [lia | done].
    + exists []. simpl. rewrite app_nil_r. split; [done|].
      split; [lia | constructor].
Qed.

Lemma push_mentions_normal (shortKey : jsval) (seq : Z)
    (mentionsData : list jsval) (staged : list BatchOp) :
  Forall (λ mention, mention ≠ JUndefined ∧ mention ≠ JNull) mentionsData →
  push_mentions shortKey seq mentionsData staged
    = (staged ++ map (mention_op shortKey seq)
                     (omap mention_link mentionsData),
       Normal).
Proof.
  revert staged. induction mentionsData as [|mention rest IH];
    intros staged Hall.
  - simpl. by rewrite app_nil_r.
  - inversion Hall as [|? ? [Hundef Hnull] Hrest]; subst.
    simpl. unfold mention_link at 1.
    destruct mention as [| | | | | |fields]; try done; simpl;
      try (by apply IH).
    destruct (is_link (assoc "link" fields)); simpl.
    + rewrite IH by done. by rewrite <- app_assoc.
    + by apply IH.
Qed.

Lemma push_mentions_throws (shortKey : jsval) (seq : Z)
    (mentionsData : list jsval) (staged : list BatchOp) :
  Exists (λ mention, mention = JUndefined ∨ mention = JNull) mentionsData →
  snd (push_mentions shortKey seq mentionsData staged) = TypeError.
Proof.
  intros Hex. revert staged.
  induction Hex as [mention rest [->| ->]|mention rest _ IH]; intros staged;
    try done.
  simpl. destruct (prop mention "link"); [apply IH | done].
Qed.

Section FullMentionsStaging.

Variable Buffer : Type.
Variable seekKey : Buffer → Z → string → Z.
Variable decode : Buffer → Z → jsval.

Local Abbreviation handle := (handleRecord Buffer seekKey decode).

(** X19: whatever the record, [handleRecord] only adds to the batch: the
    operations staged before are kept, in order, and every operation it
    adds is a [put] of the sequence it was called with under a key whose
    first component is a mention link, a string that starts with [@] or
    [%]. *)
Theorem handleRecord_stages_links (this : Plugin)
    (record : StreamRecord Buffer) (seq : Z) :
  ∃ more : list BatchOp,
    fst (handle this record seq) = batch this ++ more ∧
    Forall (λ op,
              op_type op = "put" ∧ op_value op = seq ∧
              ∃ (c : ascii) (rest : string) (shortKey : jsval),
                op_key op = JArr [JStr (String c rest); shortKey] ∧
                (c = "@"%char ∨ c = "%"%char)) more.
Proof.
  set (ok := λ op : BatchOp,
         op_type op = "put" ∧ op_value op = seq ∧
         ∃ (c : ascii) (rest : string) (shortKey : jsval),
           op_key op = JArr [JStr (String c rest); shortKey] ∧
           (c = "@"%char ∨ c = "%"%char)).
  assert (∀ c : Completion,
            ∃ more : list BatchOp,
              fst (batch this, c) = batch this ++ more ∧ Forall ok more)
    as Hnothing.
  { intros c. exists []. simpl. by rewrite app_nil_r. }
  unfold handleRecord. cbv zeta.
  destruct (offset record <? offset_value this); [apply Hnothing|].
  destruct (value record) as [recBuffer|]; [|apply Hnothing].
  destruct (seekKey recBuffer 0 bValue <? 0); [apply Hnothing|].
  destruct (seekKey recBuffer (seekKey recBuffer 0 bValue) bContent <? 0);
    [apply Hnothing|].
  destruct (seekKey recBuffer _ bMentions <? 0); [apply Hnothing|].
  destruct (decode recBuffer _) as [| | | | |mentionsData|];
    try apply Hnothing.
  destruct (slice_1_10 _) as [shortKey|]; [|apply Hnothing].
  destruct (push_mentions_staged shortKey seq mentionsData (batch this))
    as (more & Heq & _ & Hall).
  exists more. split; [done|].
  eapply Forall_impl; [exact Hall|].
  intros op (link & Hlink & ->).
  destruct (is_link_inv link Hlink) as (c & rest & -> & Hc).
  split; [done|]. split; [done|]. by exists c, rest, shortKey.
Qed.

(** X20: for a live record at or above the offset of the index whose
    [value.content.mentions] is found and decodes to an array:
    when the key of the record has no [slice] (it is neither a string nor
    an array), [handleRecord] throws and stages nothing; otherwise, when no
    mention is [null] or [undefined], it stages one [put] per mention with
    a qualifying link, in the order of the mentions, and returns; and when
    some mention is [null] or [undefined], it throws. *)
Theorem handleRecord_live_record (this : Plugin)
    (record : StreamRecord Buffer) (seq : Z) (recBuffer : Buffer)
    (mentionsData : list jsval) :
  offset_value this ≤ offset record →
  value record = Some recBuffer →
  0 ≤ seekKey recBuffer 0 bValue →
  0 ≤ seekKey recBuffer (seekKey recBuffer 0 bValue) bContent →
  0 ≤ seekKey recBuffer
        (seekKey recBuffer (seekKey recBuffer 0 bValue) bContent) bMentions →
  decode recBuffer
    (seekKey recBuffer
       (seekKey recBuffer (seekKey recBuffer 0 bValue) bContent) bMentions)
    = JArr mentionsData →
  match slice_1_10 (decode recBuffer (seekKey recBuffer 0 bKey)) with
  | None => handle this record seq = (batch this, TypeError)
  | Some shortKey =>
      (Forall (λ mention, mention ≠ JUndefined ∧ mention ≠ JNull)
         mentionsData →
       handle this record seq
         = (batch this ++ map (mention_op shortKey seq)
                              (omap mention_link mentionsData),
            Normal)) ∧
      (Exists (λ mention, mention = JUndefined ∨ mention = JNull)
         mentionsData →
       snd (handle this record seq) = TypeError)
  end.
Proof.
  intros Hoffset Hvalue Hp1 Hp2 Hp3 Hmentions.
  unfold handleRecord. cbv zeta.
  rewrite (proj2 (Z.ltb_ge _ _) Hoffset), Hvalue.
  rewrite (proj2 (Z.ltb_ge _ _) Hp1), (proj2 (Z.ltb_ge _ _) Hp2),
    (proj2 (Z.ltb_ge _ _) Hp3), Hmentions.
  destruct (slice_1_10 _) as [shortKey|]; [|done].
  split.
  - apply push_mentions_normal.
  - apply push_mentions_throws.
Qed.

End FullMentionsStaging.

(** * Scenarios on the test data *)

Import Fixture.

Lemma index_ticks_consistent (n : nat) (db : DB) :
  index_consistent db → index_consistent (index_ticks n db).
Proof.
  revert db. induction n as [|n IH]; intros db Hcons.
  - by destruct db.
  - apply (IH (index_tick db)). by apply index_tick_consistent.
Qed.

Lemma empty_db_consistent : index_consistent empty_db.
Proof.
  split; [simpl; lia|]. intros k n Hk. simpl in Hk.
  by rewrite lookup_empty in Hk.
Qed.

Lemma with_state_consistent (st : ValidationState) (db : DB) :
  index_consistent db → index_consistent (with_state st db).
Proof. by intros [? ?]. Qed.

Lemma db_alice_consistent : index_consistent db_alice.
Proof.
  unfold db_alice, catch_up. apply index_ticks_consistent.
  replace (fst (validateAndAdd empty_db msg1))
    with (fst (Fixture.add (with_state (advance initial msg1) empty_db) msg1))
    by reflexivity.
  apply add_consistent, with_state_consistent, empty_db_consistent.
Qed.

(** The five ways the strict append rejects a message of alice, whose latest
    message is [msg1], as [validateAndAdd] reports them; [msg2] is admitted. *)
Example validateAndAdd_rejections :
  validateAndAdd db_alice msg_duplicate
    = (db_alice, CbErr (ValidationError SequenceGap)) ∧
  validateAndAdd db_alice msg_gap
    = (db_alice, CbErr (ValidationError SequenceGap)) ∧
  validateAndAdd db_alice msg_fork
    = (db_alice, CbErr (ValidationError PreviousMismatch)) ∧
  validateAndAdd db_alice msg_early
    = (db_alice, CbErr (ValidationError TimestampRegression)) ∧
  validateAndAdd db_alice msg_forged
    = (db_alice, CbErr (ValidationError BadSignature)) ∧
  is_err (snd (validateAndAdd db_alice msg2)) = false.
Proof. repeat split; reflexivity. Qed.

(** A [deleteFeed] that fails half-way: the index resolves the first message
    of alice and not yet the second, so the first record is tombstoned, the
    second is not, and the feed state of alice stays. *)
Example deleteFeed_fails_behind_index :
  snd (deleteFeed db_alice_behind alice) = CbErr NotFound ∧
  log (fst (deleteFeed db_alice_behind alice)) !! 0%nat = Some None ∧
  log (fst (deleteFeed db_alice_behind alice)) !! 1%nat
    = log db_alice_behind !! 1%nat ∧
  state (fst (deleteFeed db_alice_behind alice)) = state db_alice_behind ∧
  is_Some (feeds (state (fst (deleteFeed db_alice_behind alice))) !! alice).
Proof. repeat split; try reflexivity. by eexists. Qed.

(** ... and one that succeeds once the index has caught up. *)
Example deleteFeed_succeeds_caught_up :
  snd (deleteFeed (catch_up db_alice_behind) alice) = CbOk tt ∧
  log (fst (deleteFeed (catch_up db_alice_behind) alice)) = [None; None] ∧
  feeds (state (fst (deleteFeed (catch_up db_alice_behind) alice))) !! alice
    = None.
Proof. repeat split; reflexivity. Qed.

(** Witness of C1: a transaction with a sequence gap in its ordered set
    leaves the empty database empty, and a valid transaction of two ordered
    messages and one out-of-order message appends three records. *)
Lemma addTransaction_all_or_none_witness :
  (∃ err : Error,
     addTransaction empty_db [msg1; msg_gap] [msg5] = (empty_db, CbErr err)) ∧
  length (log (fst (addTransaction empty_db [msg1; msg2] [msg5]))) = 3%nat.
Proof.
  split.
  - pose proof (addTransaction_all_or_none hash stringify initial append
                  appendOOO empty_db [msg1; msg_gap] [msg5]) as H.
    cbv zeta in H. destruct H as (Hnone & _ & _). apply Hnone.
    left. exists (ValidationError SequenceGap).
    apply invalid_later; [reflexivity|]. apply invalid_first. reflexivity.
  - pose proof (addTransaction_all_or_none hash stringify initial append
                  appendOOO empty_db [msg1; msg2] [msg5]) as H.
    cbv zeta in H. destruct H as (_ & Hall & _).
    destruct (Hall (advance (advance initial msg1) msg2)) as [Heq Hlen].
    + apply valid_next; [reflexivity|]. apply valid_next; [reflexivity|].
      apply valid_none.
    + repeat constructor.
    + unfold addTransaction. rewrite Heq. simpl. reflexivity.
Defined.

(** Counterexample to C2 as stated: two [add]s of the same message, the
    second before the base index has incorporated the first, leave two
    records in the log. *)
Lemma add_twice_before_indexing_appends_twice :
  let db1 := fst (add empty_db msg1) in
  let stored := mkRecord (getId msg1) msg1 in
  snd (add empty_db msg1) = CbOk (Appended stored) ∧
  snd (add db1 msg1) = CbOk (Appended stored) ∧
  log (fst (add db1 msg1)) = [Some stored; Some stored].
Proof. repeat split; reflexivity. Qed.

(** Witness of C2 (amended). *)
Lemma add_twice_once_indexed_witness :
  index_consistent empty_db ∧
  is_err (getDataFromKey (fullIndex empty_db) (log empty_db) (getId msg1))
    = true ∧
  (let db2 := catch_up (fst (add empty_db msg1)) in
   add db2 msg1 = (db2, CbOk (Existing msg1)) ∧
   log (fst (add db2 msg1)) = [Some (mkRecord (getId msg1) msg1)]).
Proof.
  split; [apply empty_db_consistent|]. split; [reflexivity|].
  destruct (add_twice_once_indexed hash stringify unbox empty_db msg1
              empty_db_consistent) as [_ Htwice].
  destruct (Htwice eq_refl) as (_ & _ & Hsecond & Hlog).
  split; [exact Hsecond | exact Hlog].
Defined.



(** Counterexample to C4 as stated: the empty database has seen no message
    of bob.  His message of sequence 5 is admitted by [validateAndAdd]
    through the out-of-order path, and bob is KNOWN afterwards; and when
    [validateAndAddOOO] admits it, the base index incorporates it and the
    database starts again, the restore makes bob KNOWN at sequence 5. *)
Lemma out_of_order_admission_makes_feed_known :
  let accepted := validateAndAdd empty_db msg5 in
  let restarted :=
    run_ops empty_db [OpValidateAndAddOOO msg5; OpIndexProgress; OpRestart] in
  sequence msg5 = 5 ∧
  log empty_db = [] ∧
  key_in bob (feeds (state empty_db)) = false ∧
  is_err (snd accepted) = false ∧
  key_in bob (feeds (state (fst accepted))) = true ∧
  is_err (snd (validateAndAddOOO empty_db msg5)) = false ∧
  fs_sequence <$> feeds (state restarted) !! bob = Some 5.
Proof. repeat split; reflexivity. Qed.

(** Witness of C4 (amended): the second message of alice, who is KNOWN, and
    the message of bob, who is not. *)
Lemma validateAndAdd_routes_by_known_author_witness :
  is_Some (feeds (state db_alice) !! author msg2) ∧
  Db.validateAndAdd hash stringify unbox append
    (λ st _, Throws (JsError "never called") st) db_alice msg2
    = validateAndAdd db_alice msg2 ∧
  reported (append (state db_alice) msg2) = None ∧
  key_in (author msg5) (feeds (state db_alice)) = false ∧
  state (fst (validateAndAdd db_alice msg5))
    = state_after (appendOOO (state db_alice) msg5) ∧
  fs_sequence <$>
    feeds (state (init (log db_alice) (fullIndex db_alice))) !! alice
    = Some 1.
Proof.
  assert (is_Some (feeds (state db_alice) !! author msg2)) as Hknown
    by (eexists; reflexivity).
  split; [exact Hknown|].
  destruct (validateAndAdd_routes_by_known_author hash stringify unbox initial
              append appendOOO db_alice msg2) as (_ & Hstrict & _ & Hrestore).
  destruct (Hstrict Hknown) as (Hother & _ & Haccepted).
  split; [apply Hother|]. split; [apply Haccepted; reflexivity|].
  split; [reflexivity|].
  destruct (validateAndAdd_routes_by_known_author hash stringify unbox initial
              append appendOOO db_alice msg5) as (_ & _ & Hooo & _).
  split; [exact (proj2 (Hooo eq_refl))|].
  exact (Hrestore alice (mkLatest (getId msg1) 100 1) eq_refl).
Defined.

Lemma empty_db_sound : index_sound empty_db.
Proof.
  intros k n r Hk. simpl in Hk. by rewrite lookup_empty in Hk.
Qed.

(** Witness of C5: the first message of alice is added to the empty
    database; the [getSync] of its identity waits for the index, and after
    one step of index progress it has delivered the message. *)
Lemma getSync_reads_the_added_message_witness :
  index_consistent empty_db ∧
  index_sound empty_db ∧
  (let db1 := fst (add empty_db msg1) in
   getSync db1 (getId msg1) = mkBarrier (Some (getId msg1)) [] ∧
   snd (run_events hash stringify unbox (db1, getSync db1 (getId msg1))
          [IndexProgress])
     = mkBarrier None [CbOk msg1]).
Proof.
  split; [apply empty_db_consistent|]. split; [apply empty_db_sound|].
  split; [reflexivity|].
  pose proof (getSync_reads_the_added_message hash stringify unbox empty_db
                msg1 empty_db_consistent empty_db_sound) as H.
  cbv zeta in H. destruct H as (_ & _ & _ & _ & Hfresh).
  exact (Hfresh eq_refl 0%nat).
Defined.

(** The same read while another message comes in: it waits until the index
    has incorporated both records, and still delivers the first message. *)
Example getSync_reads_after_further_add :
  let db1 := fst (add empty_db msg1) in
  snd (run_events hash stringify unbox (db1, getSync db1 (getId msg1))
         [IndexProgress])
    = mkBarrier None [CbOk msg1] ∧
  snd (run_events hash stringify unbox (db1, getSync db1 (getId msg1))
         [AddMessage msg2; IndexProgress])
    = mkBarrier (Some (getId msg1)) [] ∧
  snd (run_events hash stringify unbox (db1, getSync db1 (getId msg1))
         [AddMessage msg2; IndexProgress; IndexProgress; IndexProgress])
    = mkBarrier None [CbOk msg1].
Proof. repeat split; reflexivity. Qed.

(** Counterexample to C7 as stated: the content of [msg_null] is a box
    that the local key opens, to the JSON value [null].  [add] stores the
    message as it came, cyphertext in [content] and without [meta]. *)
Lemma add_stores_null_box_sealed :
  let stored := mkRecord (getId msg_null) msg_null in
  content msg_null = JStr "boxed-null" ∧
  unbox_null "boxed-null" = JNull ∧
  Db.add hash stringify unbox_null empty_db msg_null
    = (with_log [Some stored] empty_db, CbOk (Appended stored)) ∧
  content (rec_value stored) = JStr "boxed-null" ∧
  meta (rec_value stored) = None.
Proof. repeat split; reflexivity. Qed.

(** Witness of C7: a message boxed for us is stored decrypted, with its
    cyphertext in [meta]. *)
Lemma add_stores_decrypted_content_witness :
  is_err (getDataFromKey (fullIndex empty_db) (log empty_db) (getId msg_boxed))
    = true ∧
  ∃ stored : Msg,
    log (fst (add empty_db msg_boxed))
      = [Some (mkRecord (getId msg_boxed) stored)] ∧
    content stored = post ∧
    meta stored = Some (mkMeta "true" (JStr "boxed-for-us")).
Proof.
  split; [reflexivity|].
  destruct (add_stores_decrypted_content hash stringify unbox empty_db
              msg_boxed eq_refl) as (stored & Hadd & Hcontent & Hmeta & _).
  exists stored. split; [|split; [exact Hcontent | exact Hmeta]].
  unfold add. rewrite Hadd. reflexivity.
Defined.

(** A message boxed for someone else is stored as it came. *)
Example add_stores_sealed_content_as_is :
  add empty_db msg_sealed
    = (with_log [Some (mkRecord (getId msg_sealed) msg_sealed)] empty_db,
       CbOk (Appended (mkRecord (getId msg_sealed) msg_sealed))).
Proof. reflexivity. Qed.

(** Witness of C9: the key of [msg1] resolves to slot 0 of the log. *)
Lemma del_tombstones_resolved_sequence_witness :
  index_consistent db_alice ∧
  del db_alice (getId msg1) = (with_log [None] db_alice, CbOk tt) ∧
  del db_alice (getId msg2) = (db_alice, CbErr NotFound).
Proof.
  split; [apply db_alice_consistent|]. split.
  - destruct (del_tombstones_resolved_sequence db_alice (getId msg1)
                db_alice_consistent) as (_ & _ & Hdel).
    assert (idx_keys (fullIndex db_alice) !! getId msg1 = Some 0%nat) as Hkey
      by reflexivity.
    rewrite Hkey in Hdel. exact (proj1 Hdel).
  - destruct (del_tombstones_resolved_sequence db_alice (getId msg2)
                db_alice_consistent) as (_ & _ & Hdel).
    assert (idx_keys (fullIndex db_alice) !! getId msg2 = None) as Hkey
      by reflexivity.
    rewrite Hkey in Hdel. exact Hdel.
Defined.

(** Witness of C10: a record below the offset of the index, and a deleted
    record. *)
Lemma handleRecord_skips_witness :
  (offset (mkStreamRecord 3 (Some "buffer")) < offset_value test_plugin ∨
   value (mkStreamRecord 3 (Some "buffer")) = None) ∧
  handleRecord string test_seekKey test_decode test_plugin
    (mkStreamRecord 3 (Some "buffer")) 3 = ([], Normal) ∧
  handleRecord string test_seekKey test_decode test_plugin
    (mkStreamRecord 7 None) 7 = ([], Normal).
Proof.
  assert (offset (mkStreamRecord 3 (Some "buffer")) < offset_value test_plugin)
    as Hbelow by (simpl; lia).
  split; [by left|]. split.
  - exact (handleRecord_skips string test_seekKey test_decode test_plugin
             (mkStreamRecord 3 (Some "buffer")) 3 (or_introl Hbelow)).
  - exact (handleRecord_skips string test_seekKey test_decode test_plugin
             (mkStreamRecord 7 None) 7 (or_intror eq_refl)).
Defined.

(** A live record at or above the offset stages one operation per mention. *)
Example handleRecord_stages_mentions :
  handleRecord string test_seekKey test_decode test_plugin
    (mkStreamRecord 7 (Some "buffer")) 7
  = ([mkBatchOp "put" (JArr [JStr "@alice"; JArr []]) 7], Normal).
Proof. reflexivity. Qed.

(** * Scenarios for the further properties *)

Lemma db_alice_behind_consistent : index_consistent db_alice_behind.
Proof.
  change db_alice_behind
    with (apply_op hash stringify unbox initial append appendOOO db_alice
            (OpValidateAndAdd msg2)).
  apply apply_op_consistent, db_alice_consistent.
Qed.

(** The two messages of alice and the message of bob in the log, all
    incorporated by the base index. *)
Lemma db_three_consistent :
  index_consistent (catch_up (fst (validateAndAdd db_alice_behind msg5))).
Proof.
  apply index_ticks_consistent.
  change (fst (validateAndAdd db_alice_behind msg5))
    with (apply_op hash stringify unbox initial append appendOOO
            db_alice_behind (OpValidateAndAdd msg5)).
  apply apply_op_consistent, db_alice_behind_consistent.
Qed.

Lemma db_three_exact :
  index_exact (catch_up (fst (validateAndAdd db_alice_behind msg5))).
Proof.
  intros n r Hn.
  assert (log (catch_up (fst (validateAndAdd db_alice_behind msg5)))
          = [Some (mkRecord (getId msg1) msg1);
             Some (mkRecord (getId msg2) msg2);
             Some (mkRecord (getId msg5) msg5)]) as Hlog
    by (vm_compute; reflexivity).
  rewrite Hlog in Hn.
  destruct n as [|[|[|n]]]; cbn in Hn; try discriminate;
    injection Hn as <-; vm_compute; reflexivity.
Qed.

(** Witness of X1: the message boxed for us, read back decrypted. *)
Lemma get_after_add_witness :
  index_consistent empty_db ∧
  is_err (getDataFromKey (fullIndex empty_db) (log empty_db) (getId msg_boxed))
    = true ∧
  ∃ stored : Msg,
    get (catch_up (fst (add empty_db msg_boxed))) (getId msg_boxed)
      = CbOk stored ∧
    content stored = post.
Proof.
  split; [apply empty_db_consistent|]. split; [reflexivity|].
  exists (Db.store_unencrypted unbox msg_boxed). split; [|reflexivity].
  exact (get_after_add hash stringify unbox empty_db msg_boxed
           empty_db_consistent eq_refl).
Defined.

(** Witness of X2. *)
Lemma get_before_indexing_witness :
  index_consistent empty_db ∧
  idx_keys (fullIndex empty_db) !! getId msg1 = None ∧
  get (fst (add empty_db msg1)) (getId msg1) = CbErr NotFound ∧
  getSync (fst (add empty_db msg1)) (getId msg1)
    = mkBarrier (Some (getId msg1)) [].
Proof.
  split; [apply empty_db_consistent|]. split; [reflexivity|].
  destruct (get_before_indexing hash stringify unbox empty_db msg1
              empty_db_consistent eq_refl) as (_ & Hget & Hsync).
  split; [exact Hget | exact Hsync].
Defined.

(** Witness of X3: [getSync] for an identity that was never added answers
    NotFound, once. *)
Lemma getSync_answers_once_witness :
  (idx_seq (fullIndex (fst (add empty_db msg1)))
   ≤ length (log (fst (add empty_db msg1))))%nat ∧
  snd (run_events hash stringify unbox
         (fst (add empty_db msg1),
          getSync (fst (add empty_db msg1)) (getId msg2))
         (repeat IndexProgress 3))
    = mkBarrier None [CbErr NotFound].
Proof.
  assert (idx_seq (fullIndex (fst (add empty_db msg1)))
          ≤ length (log (fst (add empty_db msg1))))%nat as Hbehind
    by (vm_compute; lia).
  split; [exact Hbehind|].
  exact (getSync_answers_once hash stringify unbox (fst (add empty_db msg1))
           (getId msg2) 2 Hbehind).
Defined.

(** Witness of X6: deleting the first message of alice leaves the second
    readable. *)
Lemma get_other_after_del_witness :
  let db := catch_up db_alice_behind in
  idx_keys (fullIndex db) !! getId msg2 ≠ idx_keys (fullIndex db) !! getId msg1 ∧
  get (fst (del db (getId msg1))) (getId msg2) = CbOk msg2.
Proof.
  assert (idx_keys (fullIndex (catch_up db_alice_behind)) !! getId msg2
          ≠ idx_keys (fullIndex (catch_up db_alice_behind)) !! getId msg1)
    as Hne by (vm_compute; discriminate).
  split; [exact Hne|].
  etransitivity;
    [exact (get_other_after_del (catch_up db_alice_behind) (getId msg1)
              (getId msg2) Hne) | reflexivity].
Defined.

(** Witness of X9. *)
Lemma get_after_deleteFeed_witness :
  let db := catch_up db_alice_behind in
  snd (deleteFeed db alice) = CbOk tt ∧
  mkRecord (getId msg2) msg2 ∈ query_author (log db) alice ∧
  get (fst (deleteFeed db alice)) (getId msg2) = CbErr NotFound.
Proof.
  assert (mkRecord (getId msg2) msg2
          ∈ query_author (log (catch_up db_alice_behind)) alice) as Hin.
  { apply elem_of_query_author. exists 1%nat. split; reflexivity. }
  split; [reflexivity|]. split; [exact Hin|].
  exact (get_after_deleteFeed (catch_up db_alice_behind) alice
           (mkRecord (getId msg2) msg2) eq_refl Hin).
Defined.

(** Witness of X10: a failed [deleteFeed] of alice leaves bob as he was. *)
Lemma deleteFeed_other_feeds_witness :
  let db := fst (validateAndAdd db_alice_behind msg5) in
  bob ≠ alice ∧
  feeds (state (fst (deleteFeed db alice))) !! bob = feeds (state db) !! bob ∧
  is_Some (feeds (state db) !! bob).
Proof.
  assert (bob ≠ alice) as Hne by discriminate.
  split; [exact Hne|]. split.
  - exact (proj1 (deleteFeed_other_feeds
                    (fst (validateAndAdd db_alice_behind msg5)) alice bob Hne)).
  - eexists. reflexivity.
Defined.

(** Witness of X11: alice is deleted, the record of bob stays. *)
Lemma deleteFeed_deletes_exactly_the_feed_witness :
  let db := catch_up (fst (validateAndAdd db_alice_behind msg5)) in
  index_consistent db ∧ index_exact db ∧
  snd (deleteFeed db alice) = CbOk tt ∧
  query_author (log (fst (deleteFeed db alice))) alice = [] ∧
  log (fst (deleteFeed db alice)) !! 2%nat
    = Some (Some (mkRecord (getId msg5) msg5)).
Proof.
  split; [apply db_three_consistent|]. split; [apply db_three_exact|].
  destruct (deleteFeed_deletes_exactly_the_feed
              (catch_up (fst (validateAndAdd db_alice_behind msg5))) alice
              db_three_consistent db_three_exact) as (Hok & Hgone & Hothers).
  split; [exact Hok|]. split; [exact Hgone|].
  apply Hothers; [reflexivity | discriminate].
Defined.

(** Witness of X12: with the second message of alice not indexed yet,
    [deleteFeed] fails. *)
Lemma deleteFeed_succeeds_iff_indexed_witness :
  index_consistent db_alice_behind ∧
  idx_keys (fullIndex db_alice_behind) !! getId msg2 = None ∧
  snd (deleteFeed db_alice_behind alice) ≠ CbOk tt.
Proof.
  split; [apply db_alice_behind_consistent|]. split; [reflexivity|].
  intros Hok.
  apply (deleteFeed_succeeds_iff_indexed db_alice_behind alice
           db_alice_behind_consistent) with (r := mkRecord (getId msg2) msg2)
    in Hok as [seq Hseq].
  - discriminate Hseq.
  - apply elem_of_query_author. exists 1%nat. split; reflexivity.
Defined.

(** Witness of X16: alice publishes her first message, boxed for herself.
    The log holds it decrypted, and so does the queue of the shared state,
    where the validator had staged the cyphertext. *)
Lemma publish_then_get_witness :
  index_consistent empty_db ∧
  ∃ (st : ValidationState) (kvt : LogRecord),
    appendNew (mkVState (feeds (state empty_db)) (error (state empty_db)) [])
      (JStr "boxed-for-us") 100 = Returns st ∧
    queue st = [kvt] ∧
    author (rec_value kvt) = alice ∧
    sequence (rec_value kvt) = 1 ∧
    content (rec_value kvt) = JStr "boxed-for-us" ∧
    content ∘ rec_value
      <$> queue (state (fst (publish empty_db (JStr "boxed-for-us") 100)))
      = [post] ∧
    get (catch_up (fst (publish empty_db (JStr "boxed-for-us") 100)))
        (getId (rec_value kvt))
      = CbOk (mkMsg alice 1 None 100 post
                (Some (mkMeta "true" (JStr "boxed-for-us"))) "signed-local").
Proof.
  split; [apply empty_db_consistent|].
  set (msg := mkMsg alice 1 None 100 (JStr "boxed-for-us") None "signed-local").
  exists (advance initial msg), (mkRecord (getId msg) msg).
  split; [reflexivity|]. split; [reflexivity|].
  split; [reflexivity|]. split; [reflexivity|]. split; [reflexivity|].
  destruct (publish_then_get hash stringify unbox appendNew empty_db
              (JStr "boxed-for-us") 100 (advance initial msg)
              (mkRecord (getId msg) msg) []
              empty_db_consistent eq_refl eq_refl eq_refl) as [Hpub Hget].
  split.
  - change (Db.publish hash stringify unbox appendNew) with publish in Hpub.
    rewrite Hpub. reflexivity.
  - change (Db.publish hash stringify unbox appendNew) with publish in Hget.
    change (Db.getId hash stringify) with getId in Hget.
    cbn [rec_value] in Hget |- *. rewrite Hget. reflexivity.
Defined.

(** Witness of X18: the graph of the test data without any partial state. *)
Lemma getStatus_unmarked_witness :
  status_partial (getStatus empty_db ∅ test_graph)
    = mkPartialStatus 2 0 0 0 2 0.
Proof.
  exact (getStatus_unmarked empty_db ∅ test_graph
           (λ relation _, lookup_empty relation)
           (λ relation _, lookup_empty relation)).
Defined.

(** The status of the test data: one of two followed feeds is fully
    replicated, and one of two extended feeds has profile and contacts. *)
Example getStatus_test_data :
  getStatus db_alice_behind test_partial test_graph
    = mkStatus 2 1 (mkPartialStatus 2 1 1 0 2 1).
Proof. reflexivity. Qed.

(** Witness of X20: one mention of alice is staged under the short key. *)
Lemma handleRecord_live_record_witness :
  handleRecord string test_seekKey test_decode test_plugin
    (mkStreamRecord 7 (Some "buffer")) 7
  = ([mention_op (JArr []) 7 (JStr "@alice")], Normal).
Proof.
  pose proof (handleRecord_live_record string test_seekKey test_decode
                test_plugin (mkStreamRecord 7 (Some "buffer")) 7 "buffer"
                [JObj [("link", JStr "@alice")]]) as Hlive.
  simpl in Hlive.
  assert (Forall (λ mention : jsval, mention ≠ JUndefined ∧ mention ≠ JNull)
            [JObj [("link", JStr "@alice")]]) as Hmentions
    by (repeat constructor; discriminate).
  exact (proj1 (Hlive ltac:(lia) eq_refl ltac:(done) ltac:(done) ltac:(done)
                  eq_refl) Hmentions).
Defined.
